(** * The quad decoding engine of [decoder.go]

    A shallow embedding of the decoder facade ([NewTripleDecoder],
    [NewQuadDecoder], [Decode], [DecodeAll]), of the token lookahead buffer
    ([next], [peek]) and of the error plumbing ([recover], [expect1As],
    [expectAs], [errorf], [unexpected]), followed by the properties the
    specification states about them.

    Go methods on [*QuadDecoder] mutate the receiver and may panic; they are
    embedded as functions [QuadDecoder -> res A * QuadDecoder], the second
    component being the receiver as the call leaves it. *)

From Stdlib Require Import ZArith List String Ascii Bool Lia.
From Stdlib Require Import DecimalString.
Import ListNotations.
Local Open Scope string_scope.
Local Open Scope Z_scope.

(* ================================================================== *)
(** * Data model *)

(** Modelled from the spec: the declaration of [tokenType] is not part of
    [decoder.go]; the source only names [tokenError].  The kinds are those
    the spec lists for a Token: IRI-ref, blank-node-label, literal,
    language-tag, datatype marker, dot, whitespace/comment, end-of-input and
    lexical-error. *)
Inductive tokenType : Set :=
| tokenEOF          (* end-of-input *)
| tokenEOL          (* whitespace / comment *)
| tokenError        (* lexical-error; [text] carries the diagnostic *)
| tokenIRIAbs       (* IRI-ref *)
| tokenBNode        (* blank-node-label *)
| tokenLiteral      (* literal *)
| tokenLangMarker   (* language-tag suffix of a literal *)
| tokenDataTypeMarker (* datatype suffix of a literal; an IRI-ref follows *)
| tokenDot.         (* statement end *)

Definition tokenType_eqb (a b : tokenType) : bool :=
  match a, b with
  | tokenEOF, tokenEOF | tokenEOL, tokenEOL | tokenError, tokenError
  | tokenIRIAbs, tokenIRIAbs | tokenBNode, tokenBNode
  | tokenLiteral, tokenLiteral | tokenLangMarker, tokenLangMarker
  | tokenDataTypeMarker, tokenDataTypeMarker | tokenDot, tokenDot => true
  | _, _ => false
  end.

(** Modelled from the spec: the [token] struct is declared outside
    [decoder.go]; the source reads its fields [typ], [line], [col] and
    [text].  [line] and [col] are Go [int]s; the decoder only prints them,
    so no arithmetic (and no wrap-around) is ever performed on them. *)
Record token : Set := mkToken {
  typ  : tokenType;
  line : Z;
  col  : Z;
  text : string
}.

(** The zero value of [token], which fills a fresh [[3]token] array.
    [tokenType] is an enumeration whose zero value is taken to be the first
    kind. *)
Definition zeroToken : token := mkToken tokenEOF 0 0 "".

(** Modelled from the spec: the lexer is a black box exposing
    [nextToken() -> Token], monotonically advancing and never rewinding.  A
    deterministic lexer over a fixed reader is determined by the sequence of
    tokens it hands out, so a lexer is that sequence together with a cursor;
    each [nextToken] call moves the cursor by one. *)
Record lexer : Type := mkLexer {
  source : nat -> token;
  pos    : nat
}.

Definition nextToken (lx : lexer) : token * lexer :=
  (source lx (pos lx), mkLexer (source lx) (S (pos lx))).

(** [newLineLexer(r)]: the reader [r] is represented by the token sequence
    the lexer produces from it. *)
Definition Reader : Type := nat -> token.

Definition newLineLexer (r : Reader) : lexer := mkLexer r 0.

(** Modelled from the spec: [Format] is the closed enumeration
    {NTriples, NQuads, Turtle, RDFXML}; its declaration is outside
    [decoder.go], which names [FormatNT], [FormatRDFXML] and [FormatTTL]. *)
Inductive Format : Set := FormatNT | FormatNQ | FormatRDFXML | FormatTTL.

(** Modelled from the spec: the term model.  A Term is an IRI, a Blank node
    or a Literal with an optional language tag and an optional datatype
    IRI (the empty string stands for an absent one). *)
Inductive Term : Set :=
| IRI (str : string)
| Blank (id : string)
| Literal (val : string) (lang : string) (datatype : string).

(** [Context] is the Go interface of terms that may name a graph. *)
Definition Context : Set := Term.

(** Modelled from the spec: a Quad is a Triple plus a Context.  The four
    fields are Go interface values; [None] is the nil interface of the zero
    [Quad]. *)
Record Quad : Set := mkQuad {
  Subj : option Term;
  Pred : option Term;
  Obj  : option Term;
  Ctx  : option Context
}.

Definition zeroQuad : Quad := mkQuad None None None None.

(** Go [error] values that occur in the decoder: the sentinel [io.EOF] and
    the values built by [fmt.Errorf], which carry their message. *)
Inductive error : Set :=
| io_EOF
| fmt_error (msg : string).

Definition Error (e : error) : string :=
  match e with
  | io_EOF => "EOF"
  | fmt_error msg => msg
  end.

(** [err != io.EOF] on an [error] interface; [None] is the nil error. *)
Definition is_EOF (err : option error) : bool :=
  match err with
  | Some io_EOF => true
  | _ => false
  end.

(** Values a panic can carry in this code: an ordinary [error] (from
    [panic(fmt.Errorf(...))]), or a [runtime.Error] raised by the Go runtime
    (here: an array index out of range). *)
Inductive panic_value : Set :=
| PanicError (e : error)
| PanicRuntime (msg : string).

(** The outcome of a call: a normal return or a panic unwinding the stack. *)
Inductive res (A : Type) : Type :=
| Ret (a : A)
| Panic (p : panic_value).
Arguments Ret {A} a.
Arguments Panic {A} p.

(** The [[3]token] array: a fixed-size value with exactly three slots. *)
Record tokens3 : Type := mkTokens {
  slot0 : token;
  slot1 : token;
  slot2 : token
}.

(** [a[i]]: indexing a [[3]token] with a run-time [int]; the Go runtime
    panics when [i] is outside [0..2]. *)
Definition index (a : tokens3) (i : Z) : option token :=
  if i =? 0 then Some (slot0 a)
  else if i =? 1 then Some (slot1 a)
  else if i =? 2 then Some (slot2 a)
  else None.

(** [a[0] = t] *)
Definition store0 (a : tokens3) (t : token) : tokens3 :=
  mkTokens t (slot1 a) (slot2 a).

Record QuadDecoder : Type := mkQuadDecoder {
  l            : lexer;
  format       : Format;
  DefaultGraph : Context;
  tokens       : tokens3;
  peekCount    : Z
}.

(* ================================================================== *)
(** * The monad of decoder methods *)

Definition M (A : Type) : Type := QuadDecoder -> res A * QuadDecoder.

Definition ret {A} (a : A) : M A := fun d => (Ret a, d).

Definition bind {A B} (m : M A) (k : A -> M B) : M B :=
  fun d =>
    match m d with
    | (Ret a, d') => k a d'
    | (Panic p, d') => (Panic p, d')
    end.

Definition panic {A} (p : panic_value) : M A := fun d => (Panic p, d).

Declare Scope go_scope.
Delimit Scope go_scope with go.
Notation "x <- m ;; k" := (bind m (fun x => k))
  (at level 100, m at next level, right associativity) : go_scope.
Notation "m ;;; k" := (bind m (fun _ => k))
  (at level 100, right associativity) : go_scope.
Local Open Scope go_scope.

Definition index_out_of_range : panic_value :=
  PanicRuntime "index out of range".

(* ================================================================== *)
(** * Token lookahead buffer *)

(** [NewQuadDecoder(r, f)]: a struct literal; [tokens] and [peekCount] take
    their zero values.  Nothing in it can panic. *)
Definition NewQuadDecoder (r : Reader) (f : Format) : QuadDecoder :=
  {| l := newLineLexer r;
     format := f;
     DefaultGraph := Blank "_:defaultGraph";
     tokens := mkTokens zeroToken zeroToken zeroToken;
     peekCount := 0 |}.

(** [next]: [peekCount--] is only executed when [peekCount > 0], so the
    64-bit decrement cannot wrap. *)
Definition next : M token := fun d =>
  let d1 :=
    if 0 <? peekCount d then
      {| l := l d; format := format d; DefaultGraph := DefaultGraph d;
         tokens := tokens d; peekCount := peekCount d - 1 |}
    else
      let (t, lx) := nextToken (l d) in
      {| l := lx; format := format d; DefaultGraph := DefaultGraph d;
         tokens := store0 (tokens d) t; peekCount := peekCount d |} in
  match index (tokens d1) (peekCount d1) with
  | Some t => (Ret t, d1)
  | None => (Panic index_out_of_range, d1)
  end.

Definition peek : M token := fun d =>
  if 0 <? peekCount d then
    match index (tokens d) (peekCount d - 1) with
    | Some t => (Ret t, d)
    | None => (Panic index_out_of_range, d)
    end
  else
    let (t, lx) := nextToken (l d) in
    let d1 :=
      {| l := lx; format := format d; DefaultGraph := DefaultGraph d;
         tokens := store0 (tokens d) t; peekCount := 1 |} in
    (Ret (slot0 (tokens d1)), d1).

(** A buffer operation, and the run of a sequence of them from a decoder
    state; [None] when one of the calls panics. *)
Inductive op : Set := OpNext | OpPeek.

Definition exec (o : op) : M token :=
  match o with
  | OpNext => next
  | OpPeek => peek
  end.

Fixpoint run (ops : list op) (d : QuadDecoder) : option QuadDecoder :=
  match ops with
  | [] => Some d
  | o :: ops' =>
      match exec o d with
      | (Ret _, d') => run ops' d'
      | (Panic _, _) => None
      end
  end.

(** [n] successive [peek] calls with nothing in between: the tokens they
    return, and the state they leave. *)
Fixpoint peeks (n : nat) (d : QuadDecoder) : list (res token) * QuadDecoder :=
  match n with
  | O => ([], d)
  | S n' =>
      let (r, d') := peek d in
      let (rs, d'') := peeks n' d' in
      (r :: rs, d'')
  end.

(* ================================================================== *)
(** * Formatting and error plumbing *)

Section Engine.

(** The rendering of a token kind under [%v] and of a [Format] under [%s]:
    the declarations of the two types (and of their [String] methods, if
    any) are outside [decoder.go]. *)
Variable tokenType_String : tokenType -> string.
Variable Format_String : Format -> string.

Inductive fmt_arg : Set :=
| ArgInt (z : Z)
| ArgString (s : string)
| ArgTokenType (t : tokenType)
| ArgFormat (f : Format).

(** [%d] on an [int]: its decimal digits, with a leading minus sign when
    negative. *)
Definition decimal (z : Z) : string := NilZero.string_of_int (Z.to_int z).

(** One verb of package [fmt] applied to one operand, for the verbs and
    operand types the decoder uses; any other pairing is rendered as a
    bad-verb marker. *)
Definition format_verb (v : ascii) (a : fmt_arg) : string :=
  match a with
  | ArgInt z =>
      if (Ascii.eqb v "d" || Ascii.eqb v "v")%bool then decimal z
      else "%!" ++ String v "(int)"
  | ArgString s =>
      if (Ascii.eqb v "s" || Ascii.eqb v "v")%bool then s
      else "%!" ++ String v "(string)"
  | ArgTokenType t =>
      if Ascii.eqb v "v" then tokenType_String t
      else "%!" ++ String v "(rdf.tokenType)"
  | ArgFormat f =>
      if (Ascii.eqb v "s" || Ascii.eqb v "v")%bool then Format_String f
      else "%!" ++ String v "(rdf.Format)"
  end.

(** [fmt.Sprintf]: literal text is copied, [%%] is a percent sign, every
    other [%c] consumes one operand. *)
Fixpoint Sprintf (format : string) (args : list fmt_arg) : string :=
  match format with
  | EmptyString =>
      match args with
      | [] => ""
      | _ :: _ => "%!(EXTRA)"
      end
  | String c rest =>
      if Ascii.eqb c "%" then
        match rest with
        | EmptyString => "%!(NOVERB)"
        | String v rest' =>
            if Ascii.eqb v "%" then String "%" (Sprintf rest' args)
            else
              match args with
              | [] => "%!" ++ String v "(MISSING)" ++ Sprintf rest' []
              | a :: args' => format_verb v a ++ Sprintf rest' args'
              end
        end
      else String c (Sprintf rest args)
  end.

Definition Errorf (format : string) (args : list fmt_arg) : error :=
  fmt_error (Sprintf format args).

(** [errorf] formats the error and terminates parsing. *)
Definition errorf (format : string) (args : list fmt_arg) : M unit :=
  let format := Sprintf "%s" [ArgString format] in
  panic (PanicError (Errorf format args)).

(** [unexpected] complains about the given token and terminates parsing. *)
Definition unexpected (t : token) (context : string) : M unit :=
  errorf "%d:%d unexpected %v as %s"
         [ArgInt (line t); ArgInt (col t); ArgTokenType (typ t);
          ArgString context].

(** [expect1As] consumes the next token and guarantees that it has the
    expected type. *)
Definition expect1As (context : string) (expected : tokenType) : M token :=
  t <- next ;;
  (if negb (tokenType_eqb (typ t) expected) then
     if tokenType_eqb (typ t) tokenError then
       errorf "%d:%d: syntax error: %s"
              [ArgInt (line t); ArgInt (col t); ArgString (text t)]
     else unexpected t context
   else ret tt) ;;;
  ret t.

(** The [range] loop of [expectAs]: does some expected type equal [ty]? *)
Fixpoint one_of (ty : tokenType) (expected : list tokenType) : bool :=
  match expected with
  | [] => false
  | e :: es => if tokenType_eqb ty e then true else one_of ty es
  end.

(** [expectAs] consumes the next token and guarantees that it has one of the
    expected types. *)
Definition expectAs (context : string) (expected : list tokenType) : M token :=
  t <- next ;;
  if one_of (typ t) expected then ret t
  else
    (if tokenType_eqb (typ t) tokenError then
       errorf "%d:%d: syntax error: %v"
              [ArgInt (line t); ArgInt (col t); ArgString (text t)]
     else unexpected t context) ;;;
    ret t.

(** [recover]: [e] is what the builtin [recover()] returned ([None] when
    the function is not panicking), [errp] the current content of the
    error pointer; the result is its new content, or the panic raised
    again. *)
Definition recover (e : option panic_value) (errp : option error)
  : res (option error) :=
  match e with
  | None => Ret errp
  | Some (PanicRuntime m) => Panic (PanicRuntime m)
  | Some (PanicError e') => Ret (Some e')
  end.

(* ================================================================== *)
(** * Decoder facade *)

(** Modelled from the spec: [newNTDecoder], [newRDFXMLDecoder] and
    [newTTLDecoder] are outside [decoder.go]; the concrete parsers behind
    the [TripleDecoder] interface are a closed tagged union, one tag per
    grammar. *)
Inductive TripleDecoder : Type :=
| ntDecoder (r : Reader)
| rdfxmlDecoder (r : Reader)
| ttlDecoder (r : Reader).

Definition newNTDecoder (r : Reader) : TripleDecoder := ntDecoder r.
Definition newRDFXMLDecoder (r : Reader) : TripleDecoder := rdfxmlDecoder r.
Definition newTTLDecoder (r : Reader) : TripleDecoder := ttlDecoder r.

Definition NewTripleDecoder (r : Reader) (f : Format) : res TripleDecoder :=
  match f with
  | FormatNT => Ret (newNTDecoder r)
  | FormatRDFXML => Ret (newRDFXMLDecoder r)
  | FormatTTL => Ret (newTTLDecoder r)
  | _ => Panic (PanicError
           (Errorf "Decoder for serialization format %s not implemented"
                   [ArgFormat f]))
  end.

Section Facade.

(** [parseNQ] is defined in another file of the package; [Decode] and
    [DecodeAll] are read with it as a parameter. *)
Variable parseNQ : M (Quad * option error).

Definition Decode : M (Quad * option error) := parseNQ.

(** The [for] loop of [DecodeAll], [qs] being the slice accumulated so far.
    The loop ends only when [Decode] reports [io.EOF] or a fault, so it is
    run with fuel: [None] means the fuel ran out. *)
Fixpoint DecodeAll_loop (fuel : nat) (qs : list Quad) (d : QuadDecoder)
  : option (res (list Quad * option error) * QuadDecoder) :=
  match fuel with
  | O => None
  | S fuel' =>
      match Decode d with
      | (Panic p, d') => Some (Panic p, d')
      | (Ret (q, err), d') =>
          if is_EOF err then Some (Ret (qs, None), d')
          else
            match err with
            | Some e => Some (Ret ([], Some e), d')
            | None => DecodeAll_loop fuel' (qs ++ [q]) d'
            end
      end
  end.

(** [DecodeAll]: [var qs []Quad] starts as the nil slice, written [[]]. *)
Definition DecodeAll (fuel : nat) (d : QuadDecoder)
  : option (res (list Quad * option error) * QuadDecoder) :=
  DecodeAll_loop fuel [] d.

End Facade.

(* ================================================================== *)
(** * The N-Quads parser core *)

(** Reading a field of the receiver. *)
Definition get : M QuadDecoder := fun d => (Ret d, d).

(** Modelled from the spec: term construction is outside [decoder.go].
    "Constructed Terms copy/own the lexeme text they need", a token's
    [text] being its raw lexeme: an IRI-ref token yields the IRI of its
    text, any other subject or graph token the Blank node of its text. *)
Definition node_of_token (t : token) : Term :=
  match typ t with
  | tokenIRIAbs => IRI (text t)
  | _ => Blank (text t)
  end.

(** Modelled from the spec: step 4 of the parser core, the optional suffix
    of a literal object: a language tag, or a datatype IRI, never both. *)
Definition parseLiteralSuffix (o : token) : M Term :=
  s <- peek ;;
  match typ s with
  | tokenLangMarker =>
      next ;;; ret (Literal (text o) (text s) "")
  | tokenDataTypeMarker =>
      next ;;;
      (i <- expect1As "datatype" tokenIRIAbs ;;
       ret (Literal (text o) "" (text i)))
  | _ => ret (Literal (text o) "" "")
  end.

(** Modelled from the spec: step 5, the optional graph label (an IRI-ref
    or a blank-node-label); [None] when the statement has none. *)
Definition parseGraphLabel : M (option Context) :=
  g <- peek ;;
  match typ g with
  | tokenIRIAbs | tokenBNode => next ;;; ret (Some (node_of_token g))
  | _ => ret None
  end.

(** Modelled from the spec: steps 2 to 6 of the parser core of one
    statement: subject (IRI-ref or blank-node-label), predicate (IRI-ref
    only), object (IRI-ref, blank-node-label or literal with its suffix),
    optional graph label, terminating dot.  The expectation checks are
    those of [decoder.go]. *)
Definition parseStatement : M (Term * Term * Term * option Context) :=
  s <- expectAs "subject" [tokenIRIAbs; tokenBNode] ;;
  p <- expect1As "predicate" tokenIRIAbs ;;
  o <- expectAs "object" [tokenIRIAbs; tokenBNode; tokenLiteral] ;;
  obj <- (match typ o with
          | tokenLiteral => parseLiteralSuffix o
          | _ => ret (node_of_token o)
          end) ;;
  g <- parseGraphLabel ;;
  expect1As "dot" tokenDot ;;;
  ret (node_of_token s, node_of_token p, obj, g).

(** Modelled from the spec: step 7, the quad of a parsed statement; a
    statement without a graph label gets the decoder's default graph. *)
Definition quad_of (d : QuadDecoder) (st : Term * Term * Term * option Context)
  : Quad :=
  let '(s, p, o, g) := st in
  {| Subj := Some s; Pred := Some p; Obj := Some o;
     Ctx := Some (match g with
                  | Some c => c
                  | None => DefaultGraph d
                  end) |}.

(** Modelled from the spec: step 1, "skip/consume leading token".  As
    long as the token at the head is a whitespace/comment token it is
    consumed, one token per turn, through the lookahead buffer.  The spec
    puts no bound on how many such tokens lead a statement, and on a lexer
    that hands out nothing else the loop has no end; it is run with
    [fuel] turns, and the properties below ask for enough of them. *)
Fixpoint skipLeading (fuel : nat) : M unit :=
  match fuel with
  | O => ret tt
  | S fuel' =>
      t <- peek ;;
      match typ t with
      | tokenEOL => next ;;; skipLeading fuel'
      | _ => ret tt
      end
  end.

(** The number of turns the loop of step 1 is given. *)
Variable skip_fuel : nat.

(** Modelled from the spec: steps 1 and 7.  Leading whitespace/comment
    tokens skipped, the token at the head is looked at through the
    lookahead buffer (not taken, so that step 2 can expect it as the
    subject); when it is end-of-input the parser signals EndOfStream. *)
Definition parseNQ_body : M (Quad * option error) :=
  skipLeading skip_fuel ;;;
  (t <- peek ;;
   match typ t with
   | tokenEOF => ret (zeroQuad, Some io_EOF)
   | _ =>
       st <- parseStatement ;;
       d <- get ;;
       ret (quad_of d st, None)
   end).

(** [defer d.recover(&err)] around a body with results [(q Quad, err
    error)]: when the body panics, [recover] decides between an ordinary
    error result and the panic going on. *)
Definition deferred_recover (body : M (Quad * option error))
  : M (Quad * option error) :=
  fun d =>
    match body d with
    | (Ret (q, err), d') =>
        match recover None err with
        | Ret err' => (Ret (q, err'), d')
        | Panic p => (Panic p, d')
        end
    | (Panic p, d') =>
        match recover (Some p) None with
        | Ret err' => (Ret (zeroQuad, err'), d')
        | Panic p' => (Panic p', d')
        end
    end.

(** Modelled from the spec: [parseNQ] is missing from the source at hand.
    It is the state machine of the spec's N-Quads parser core, started
    afresh at each call, whose grammar violations are "caught exactly once
    at the Decode boundary" by [recover]. *)
Definition parseNQ : M (Quad * option error) :=
  deferred_recover parseNQ_body.

End Engine.

Arguments Sprintf tokenType_String Format_String format args : simpl nomatch.

(* ================================================================== *)
(** * Example inputs *)

Definition show_kind (t : tokenType) : string :=
  match t with
  | tokenEOF => "EOF"
  | tokenEOL => "EOL"
  | tokenError => "Error"
  | tokenIRIAbs => "IRI (absolute)"
  | tokenBNode => "Blank node"
  | tokenLiteral => "Literal"
  | tokenLangMarker => "Language tag marker"
  | tokenDataTypeMarker => "Literal datatype marker"
  | tokenDot => "Dot"
  end.

Definition show_format (f : Format) : string :=
  match f with
  | FormatNT => "N-Triples"
  | FormatNQ => "N-Quads"
  | FormatRDFXML => "RDF/XML"
  | FormatTTL => "Turtle"
  end.

(** The lexer's output on a finite list of tokens: the tokens in order,
    then end-of-input for ever. *)
Definition reader_of (ts : list token) : Reader :=
  fun n => nth n ts (mkToken tokenEOF (Z.of_nat (S (List.length ts))) 1 "").

Definition tIRI (ln c : Z) (s : string) : token := mkToken tokenIRIAbs ln c s.
Definition tLit (ln c : Z) (s : string) : token := mkToken tokenLiteral ln c s.
Definition tDot (ln c : Z) : token := mkToken tokenDot ln c ".".
Definition tEOL (ln c : Z) : token := mkToken tokenEOL ln c "".

(** [<http://a> <http://b> "x" .] *)
Definition stmt_plain (ln : Z) : list token :=
  [tIRI ln 1 "http://a"; tIRI ln 12 "http://b"; tLit ln 23 "x"; tDot ln 27].

(** [<http://a> <http://b> "x" <http://g> .] *)
Definition stmt_graph (ln : Z) : list token :=
  [tIRI ln 1 "http://a"; tIRI ln 12 "http://b"; tLit ln 23 "x";
   tIRI ln 27 "http://g"; tDot ln 38].

(** [<http://a> . "x" .]: a dot where the predicate should be. *)
Definition stmt_bad (ln : Z) : list token :=
  [tIRI ln 1 "http://a"; tDot ln 12; tLit ln 14 "x"; tDot ln 18].

(* ================================================================== *)
(** * Predicates used by the statements *)

(** The bookkeeping invariant of the lookahead buffer. *)
Definition buffer_inv (d : QuadDecoder) : Prop :=
  0 <= peekCount d <= 1.

(** Only slot 0 of the array has ever been written. *)
Definition upper_slots_untouched (d : QuadDecoder) : Prop :=
  slot1 (tokens d) = zeroToken /\ slot2 (tokens d) = zeroToken.

(** Three tokens of lookahead, by what follows from it: some sequence of
    buffer operations on a fresh decoder leads to a state from which three
    successive [next] calls return without the lexer being consulted (its
    cursor is where it was). *)
Definition three_token_lookahead : Prop :=
  exists (r : Reader) (f : Format) (ops : list op) (d : QuadDecoder),
    run ops (NewQuadDecoder r f) = Some d /\
    exists t1 d1 t2 d2 t3 d3,
      next d = (Ret t1, d1) /\ next d1 = (Ret t2, d2) /\
      next d2 = (Ret t3, d3) /\ pos (l d3) = pos (l d).

(** [decode_run P d qs d']: starting in [d], successive [Decode] calls
    succeed with the quads [qs], in this order, and leave the decoder in
    [d']. *)
Inductive decode_run (P : M (Quad * option error))
  : QuadDecoder -> list Quad -> QuadDecoder -> Prop :=
| decode_run_nil d : decode_run P d [] d
| decode_run_cons d q d1 qs d2 :
    Decode P d = (Ret (q, None), d1) ->
    decode_run P d1 qs d2 ->
    decode_run P d (q :: qs) d2.

(** A decoder session: the states a decoder built by [NewQuadDecoder]
    goes through under [Decode] calls and buffer operations. *)
Inductive session (P : M (Quad * option error)) (r : Reader) (f : Format)
  : QuadDecoder -> Prop :=
| session_new : session P r f (NewQuadDecoder r f)
| session_Decode d o d' :
    session P r f d -> Decode P d = (o, d') -> session P r f d'
| session_exec d b o d' :
    session P r f d -> exec b d = (o, d') -> session P r f d'.

(** The fault message [msg] locates the token [t]: it starts with the
    token's line and column, [line:col]. *)
Definition positioned (t : token) (msg : string) : Prop :=
  exists rest, msg = decimal (line t) ++ ":" ++ decimal (col t) ++ rest.

(** A method is [tidy] when it leaves the default graph and the format of
    the decoder alone, and never panics with [io.EOF]. *)
Definition tidy {A} (m : M A) : Prop :=
  forall d r d',
    m d = (r, d') ->
    DefaultGraph d' = DefaultGraph d /\ format d' = format d /\
    forall p, r = Panic p -> p <> PanicError io_EOF.

Section StatementPredicates.

Variable tokenType_String : tokenType -> string.
Variable Format_String : Format -> string.

(** The message of the fault an expectation check raises on token [t]. *)
Definition fault_message (context : string) (t : token) : string :=
  if tokenType_eqb (typ t) tokenError
  then decimal (line t) ++ ":" ++ decimal (col t)
         ++ ": syntax error: " ++ text t
  else decimal (line t) ++ ":" ++ decimal (col t)
         ++ " unexpected " ++ tokenType_String (typ t)
         ++ " as " ++ context.

(** A call of one of the token-level methods of the decoder. *)
Inductive call : Set :=
| CallNext
| CallPeek
| CallExpect1As (context : string) (expected : tokenType)
| CallExpectAs (context : string) (expected : list tokenType).

Definition perform (c : call) : M token :=
  match c with
  | CallNext => next
  | CallPeek => peek
  | CallExpect1As context expected =>
      expect1As tokenType_String Format_String context expected
  | CallExpectAs context expected =>
      expectAs tokenType_String Format_String context expected
  end.

(** The decoder after a sequence of such calls, whatever their outcomes:
    a call that panics leaves the receiver as it was when the panic was
    raised, and the caller may go on using it. *)
Fixpoint after_calls (cs : list call) (d : QuadDecoder) : QuadDecoder :=
  match cs with
  | [] => d
  | c :: cs' => after_calls cs' (snd (perform c d))
  end.

End StatementPredicates.

(* ================================================================== *)
(** * The buffer as a cursor over the token sequence *)

(** The tokens a sequence of buffer operations returns, call by call;
    [None] when one of the calls panics. *)
Fixpoint outputs (ops : list op) (d : QuadDecoder) : option (list token) :=
  match ops with
  | [] => Some []
  | o :: ops' =>
      match exec o d with
      | (Ret t, d') => option_map (cons t) (outputs ops' d')
      | (Panic _, _) => None
      end
  end.

(** What a cursor over the token sequence [r], standing at index [i],
    answers to the same calls: [next] hands out the token under the cursor
    and moves on, [peek] hands it out and stays. *)
Fixpoint stream_view (r : Reader) (i : nat) (ops : list op) : list token :=
  match ops with
  | [] => []
  | OpNext :: ops' => r i :: stream_view r (S i) ops'
  | OpPeek :: ops' => r i :: stream_view r i ops'
  end.

(** The number of [next] calls in a sequence of operations. *)
Fixpoint taken (ops : list op) : nat :=
  match ops with
  | [] => O
  | OpNext :: ops' => S (taken ops')
  | OpPeek :: ops' => taken ops'
  end.

(** The index, in the lexer's token sequence, of the token the decoder
    hands out next: the lexer's cursor, less the buffered token. *)
Definition cursor (d : QuadDecoder) : nat :=
  (pos (l d) - Z.to_nat (peekCount d))%nat.

(** Buffer and lexer agree: a buffered token is the one the lexer handed
    out last. *)
Definition synced (d : QuadDecoder) : Prop :=
  buffer_inv d /\
  (peekCount d = 1 ->
   (1 <= pos (l d))%nat /\
   slot0 (tokens d) = source (l d) (pos (l d) - 1)%nat).

(** The token sequence [src] is exhausted at index [c], [n] tokens on: the
    [n] tokens from [c] are whitespace/comment tokens and the one after
    them is end-of-input. *)
Definition exhausted_after (src : nat -> token) (c n : nat) : Prop :=
  (forall i, (i < n)%nat -> typ (src (c + i)%nat) = tokenEOL) /\
  typ (src (c + n)%nat) = tokenEOF.

(** A method is [orderly] when it keeps buffer and lexer in agreement and
    reads the same token sequence after as before. *)
Definition orderly {A} (m : M A) : Prop :=
  forall d r d',
    synced d -> m d = (r, d') ->
    synced d' /\ source (l d') = source (l d).

(** A method is [frugal] when a call pulls at most one token from the
    lexer, never moves the lexer back or changes its token sequence, and
    leaves the format and the default graph of the decoder alone. *)
Definition frugal {A} (m : M A) : Prop :=
  forall d r d',
    m d = (r, d') ->
    source (l d') = source (l d) /\
    (pos (l d) <= pos (l d') <= S (pos (l d)))%nat /\
    format d' = format d /\
    DefaultGraph d' = DefaultGraph d.

(* ================================================================== *)
(** * The lookahead buffer *)

(** Closing a conjunction of facts that hold by computation. *)
Ltac splits := repeat split; auto.

Lemma next_spec (d : QuadDecoder) :
  0 <= peekCount d <= 3 ->
  exists t d',
    next d = (Ret t, d') /\
    DefaultGraph d' = DefaultGraph d /\ format d' = format d /\
    if 0 <? peekCount d
    then l d' = l d /\ tokens d' = tokens d /\
         peekCount d' = peekCount d - 1 /\
         index (tokens d) (peekCount d - 1) = Some t
    else (t, l d') = nextToken (l d) /\
         tokens d' = store0 (tokens d) t /\ peekCount d' = 0.
Proof.
  intros H. unfold next.
  destruct (0 <? peekCount d) eqn:E.
  - apply Z.ltb_lt in E. cbn [tokens peekCount].
    assert (C : peekCount d = 1 \/ peekCount d = 2 \/ peekCount d = 3) by lia.
    destruct C as [C | [C | C]]; rewrite C; cbn;
      eexists; eexists; (split; [reflexivity |]); cbn; splits.
  - apply Z.ltb_ge in E. assert (C : peekCount d = 0) by lia.
    cbn. rewrite C. cbn.
    eexists; eexists; (split; [reflexivity |]); cbn; splits.
Qed.

Lemma peek_spec (d : QuadDecoder) :
  peekCount d <= 3 ->
  exists t d',
    peek d = (Ret t, d') /\
    DefaultGraph d' = DefaultGraph d /\ format d' = format d /\
    if 0 <? peekCount d
    then d' = d /\ index (tokens d) (peekCount d - 1) = Some t
    else (t, l d') = nextToken (l d) /\
         tokens d' = store0 (tokens d) t /\ peekCount d' = 1.
Proof.
  intros H. unfold peek.
  destruct (0 <? peekCount d) eqn:E.
  - apply Z.ltb_lt in E.
    assert (C : peekCount d = 1 \/ peekCount d = 2 \/ peekCount d = 3) by lia.
    destruct C as [C | [C | C]]; rewrite C; cbn;
      eexists; eexists; (split; [reflexivity |]); splits.
  - cbn. eexists; eexists; (split; [reflexivity |]); cbn; splits.
Qed.

Lemma next_inv (d : QuadDecoder) :
  buffer_inv d ->
  exists t d', next d = (Ret t, d') /\ buffer_inv d' /\ peekCount d' = 0.
Proof.
  intros H. unfold buffer_inv in *.
  destruct (next_spec d) as (t & d' & E & _ & _ & S); [lia |].
  exists t, d'. split; [exact E |].
  destruct (0 <? peekCount d) eqn:C.
  - apply Z.ltb_lt in C. destruct S as (_ & _ & P & _). lia.
  - destruct S as (_ & _ & P). lia.
Qed.

Lemma peek_inv (d : QuadDecoder) :
  buffer_inv d ->
  exists t d', peek d = (Ret t, d') /\ buffer_inv d' /\ peekCount d' = 1.
Proof.
  intros H. unfold buffer_inv in *.
  destruct (peek_spec d) as (t & d' & E & _ & _ & S); [lia |].
  exists t, d'. split; [exact E |].
  destruct (0 <? peekCount d) eqn:C.
  - apply Z.ltb_lt in C. destruct S as (-> & _). lia.
  - destruct S as (_ & _ & P). lia.
Qed.

Lemma exec_inv (o : op) (d : QuadDecoder) :
  buffer_inv d ->
  exists t d', exec o d = (Ret t, d') /\ buffer_inv d'.
Proof.
  intros H. destruct o; cbn.
  - destruct (next_inv d H) as (t & d' & E & I & _); eauto.
  - destruct (peek_inv d H) as (t & d' & E & I & _); eauto.
Qed.

Lemma exec_upper_slots (o : op) (d : QuadDecoder) r d' :
  exec o d = (r, d') ->
  slot1 (tokens d') = slot1 (tokens d) /\ slot2 (tokens d') = slot2 (tokens d).
Proof.
  destruct o; cbn; unfold next, peek; intros E.
  - destruct (0 <? peekCount d); cbn in E;
      match type of E with
      | match ?x with _ => _ end = _ => destruct x
      end; inversion E; subst; cbn; auto.
  - destruct (0 <? peekCount d); cbn in E.
    + destruct (index _ _); inversion E; subst; auto.
    + inversion E; subst; cbn; auto.
Qed.

Lemma run_inv (ops : list op) :
  forall d, buffer_inv d ->
  exists d', run ops d = Some d' /\ buffer_inv d' /\
             slot1 (tokens d') = slot1 (tokens d) /\
             slot2 (tokens d') = slot2 (tokens d).
Proof.
  induction ops as [| o ops IH]; intros d H; cbn [run].
  - exists d. auto.
  - destruct (exec_inv o d H) as (t & d1 & E & I).
    rewrite E.
    destruct (IH d1 I) as (d' & R & I' & S1 & S2).
    destruct (exec_upper_slots o d _ _ E) as (U1 & U2).
    exists d'. repeat split; try apply I'; congruence.
Qed.

Lemma NewQuadDecoder_inv (r : Reader) (f : Format) :
  buffer_inv (NewQuadDecoder r f).
Proof. unfold buffer_inv; cbn; lia. Qed.

Lemma next_pos (d : QuadDecoder) t d' :
  next d = (Ret t, d') ->
  0 <= peekCount d <= 3 ->
  if 0 <? peekCount d then l d' = l d
  else (t, l d') = nextToken (l d) /\ pos (l d') = S (pos (l d)).
Proof.
  intros E H.
  destruct (next_spec d H) as (t0 & d0 & E0 & _ & _ & S).
  rewrite E in E0. inversion E0; subst t0 d0.
  destruct (0 <? peekCount d).
  - apply S.
  - destruct S as (N & _). split; [exact N |].
    unfold nextToken in N. inversion N as [[T L]]. rewrite L. reflexivity.
Qed.

(** A state in which [t] is buffered: [peek] hands it out and changes
    nothing, [next] hands it out and leaves the lexer alone. *)
Lemma buffered_token (d : QuadDecoder) (t : token) :
  1 <= peekCount d <= 3 ->
  index (tokens d) (peekCount d - 1) = Some t ->
  peek d = (Ret t, d) /\
  exists d2, next d = (Ret t, d2) /\ l d2 = l d /\
             peekCount d2 = peekCount d - 1.
Proof.
  intros H I.
  assert (C : (0 <? peekCount d) = true) by (apply Z.ltb_lt; lia).
  split.
  - unfold peek. rewrite C, I. reflexivity.
  - destruct (next_spec d) as (t0 & d0 & E0 & _ & _ & S); [lia |].
    rewrite C in S. destruct S as (L & _ & P & I0).
    rewrite I in I0. inversion I0; subst t0.
    exists d0. auto.
Qed.

Lemma after_peek (d : QuadDecoder) t d1 :
  peek d = (Ret t, d1) ->
  peekCount d <= 3 ->
  1 <= peekCount d1 <= 3 /\ index (tokens d1) (peekCount d1 - 1) = Some t.
Proof.
  intros E H.
  destruct (peek_spec d H) as (t0 & d0 & E0 & _ & _ & S).
  rewrite E in E0. inversion E0; subst t0 d0.
  destruct (0 <? peekCount d) eqn:C.
  - apply Z.ltb_lt in C. destruct S as (-> & I). split; [lia | exact I].
  - destruct S as (_ & T & P). rewrite P, T. split; [lia | reflexivity].
Qed.

Lemma peeks_fixed (t : token) (d : QuadDecoder) :
  peek d = (Ret t, d) ->
  forall n, peeks n d = (repeat (Ret t) n, d).
Proof.
  intros E. induction n as [| n IH]; cbn [peeks repeat].
  - reflexivity.
  - rewrite E, IH. reflexivity.
Qed.

(** C4: in every decoder state whose [peekCount] lies within the array
    (all reachable states do), [peek] returns the next token without
    consuming it: any number of further [peek] calls return the same token
    and leave the state as it is, and the [next] call after them returns
    exactly that token without touching the lexer.  A fresh token is pulled
    from the lexer, by [peek] as by [next], only when the buffer is empty
    ([peekCount] not positive). *)
Theorem peek_does_not_consume (d : QuadDecoder) (H : peekCount d <= 3) :
  exists t d1,
    peek d = (Ret t, d1) /\
    (forall n, peeks n d1 = (repeat (Ret t) n, d1)) /\
    (exists d2, next d1 = (Ret t, d2) /\ l d2 = l d1) /\
    (if 0 <? peekCount d then d1 = d else (t, l d1) = nextToken (l d)) /\
    (forall t' d', next d = (Ret t', d') ->
       if 0 <? peekCount d then l d' = l d
       else (t', l d') = nextToken (l d)).
Proof.
  destruct (peek_spec d H) as (t & d1 & E & _ & _ & S).
  exists t, d1. split; [exact E |].
  destruct (after_peek d t d1 E H) as (R & I).
  destruct (buffered_token d1 t R I) as (P & d2 & N & L & _).
  split; [apply peeks_fixed; exact P |].
  split; [exists d2; auto |].
  split.
  - destruct (0 <? peekCount d); apply S.
  - intros t' d' N'. unfold next in N'.
    destruct (0 <? peekCount d) eqn:C.
    + cbn [tokens peekCount] in N'.
      destruct (index (tokens d) (peekCount d - 1));
        inversion N'; reflexivity.
    + cbn in N'.
      destruct (index (store0 (tokens d) (source (l d) (pos (l d))))
                      (peekCount d)) eqn:I'; inversion N'; subst.
      cbn. unfold nextToken. f_equal.
      unfold index in I'. cbn in I'.
      apply Z.ltb_ge in C.
      destruct (peekCount d =? 0) eqn:Z0; [congruence |].
      apply Z.eqb_neq in Z0.
      destruct (peekCount d =? 1) eqn:Z1; [apply Z.eqb_eq in Z1; lia |].
      destruct (peekCount d =? 2) eqn:Z2; [apply Z.eqb_eq in Z2; lia |].
      discriminate.
Qed.

Lemma peek_does_not_consume_witness :
  let d := NewQuadDecoder (reader_of (stmt_plain 1)) FormatNQ in
  peekCount d <= 3 /\
  exists t d1,
    peek d = (Ret t, d1) /\
    (forall n, peeks n d1 = (repeat (Ret t) n, d1)) /\
    (exists d2, next d1 = (Ret t, d2) /\ l d2 = l d1) /\
    (if 0 <? peekCount d then d1 = d else (t, l d1) = nextToken (l d)) /\
    (forall t' d', next d = (Ret t', d') ->
       if 0 <? peekCount d then l d' = l d
       else (t', l d') = nextToken (l d)).
Proof.
  intros d.
  assert (H : peekCount d <= 3) by (cbn; lia).
  split; [exact H | exact (peek_does_not_consume d H)].
Defined.

(** C10: the bookkeeping invariant [0 <= peekCount <= 1] holds in the
    initial decoder state, is preserved by every sequence of [peek] and
    [next] calls (none of which panics), and such calls write slot 0 of the
    three-slot array only: slots 1 and 2 keep their initial zero value, so
    at most one token is ever buffered. *)
Theorem peekCount_invariant (r : Reader) (f : Format) (ops : list op) :
  buffer_inv (NewQuadDecoder r f) /\
  upper_slots_untouched (NewQuadDecoder r f) /\
  (exists d, run ops (NewQuadDecoder r f) = Some d /\
             buffer_inv d /\ upper_slots_untouched d) /\
  (forall d, buffer_inv d ->
     exists d', run ops d = Some d' /\ buffer_inv d' /\
                slot1 (tokens d') = slot1 (tokens d) /\
                slot2 (tokens d') = slot2 (tokens d)).
Proof.
  split; [apply NewQuadDecoder_inv |].
  split; [split; reflexivity |].
  split.
  - destruct (run_inv ops _ (NewQuadDecoder_inv r f)) as (d & R & I & S1 & S2).
    exists d. split; [exact R |]. split; [exact I |].
    split; [rewrite S1 | rewrite S2]; reflexivity.
  - intros d I. apply run_inv; exact I.
Qed.

Lemma peekCount_invariant_witness :
  let d := NewQuadDecoder (reader_of (stmt_plain 1)) FormatNQ in
  buffer_inv d /\
  exists d', run [OpPeek; OpPeek; OpNext; OpNext; OpPeek] d = Some d' /\
             buffer_inv d' /\
             slot1 (tokens d') = slot1 (tokens d) /\
             slot2 (tokens d') = slot2 (tokens d).
Proof.
  intros d.
  assert (I : buffer_inv d) by (unfold buffer_inv; cbn; lia).
  split; [exact I |].
  exact (proj2 (proj2 (proj2
    (peekCount_invariant (reader_of (stmt_plain 1)) FormatNQ
       [OpPeek; OpPeek; OpNext; OpNext; OpPeek]))) d I).
Defined.

(** C5, refuted as stated: no sequence of buffer operations on a fresh
    decoder reaches a state from which three successive [next] calls are
    served from the buffer; the lexer is consulted by the second and by the
    third. *)
Lemma no_three_token_lookahead : ~ three_token_lookahead.
Proof.
  intros (r & f & ops & d & R & t1 & d1 & t2 & d2 & t3 & d3
            & N1 & N2 & N3 & P).
  destruct (run_inv ops _ (NewQuadDecoder_inv r f)) as (d' & R' & I & _).
  rewrite R in R'. inversion R'; subst d'. clear R'.
  destruct (next_inv d I) as (u1 & e1 & E1 & I1 & Z1).
  rewrite N1 in E1. inversion E1; subst u1 e1. clear E1.
  destruct (next_inv d1 I1) as (u2 & e2 & E2 & I2 & Z2).
  rewrite N2 in E2. inversion E2; subst u2 e2. clear E2.
  unfold buffer_inv in *.
  pose proof (next_pos d _ _ N1 ltac:(lia)) as P1.
  pose proof (next_pos d1 _ _ N2 ltac:(lia)) as P2.
  pose proof (next_pos d2 _ _ N3 ltac:(lia)) as P3.
  rewrite Z1 in P2. rewrite Z2 in P3. cbn in P2, P3.
  destruct P2 as (_ & P2). destruct P3 as (_ & P3).
  destruct (0 <? peekCount d).
  - rewrite P1 in P2. lia.
  - destruct P1 as (_ & P1). lia.
Qed.

(** C5, as the code has it: the array has three slots, but the buffer
    operations keep at most one token of lookahead.  In every state reached
    by buffer operations on a fresh decoder, [peekCount] is at most 1; a
    [peek] leaves exactly one token buffered and the [next] after it returns
    that token without consulting the lexer, emptying the buffer; and of two
    successive [next] calls at least one consults the lexer. *)
Theorem one_token_lookahead (r : Reader) (f : Format) (ops : list op) :
  exists d,
    run ops (NewQuadDecoder r f) = Some d /\
    peekCount d <= 1 /\
    (exists t d1 d2,
        peek d = (Ret t, d1) /\ peekCount d1 = 1 /\
        next d1 = (Ret t, d2) /\ l d2 = l d1 /\ peekCount d2 = 0) /\
    (exists t1 d1 t2 d2,
        next d = (Ret t1, d1) /\ next d1 = (Ret t2, d2) /\
        (pos (l d) < pos (l d2))%nat).
Proof.
  destruct (run_inv ops _ (NewQuadDecoder_inv r f)) as (d & R & I & _).
  exists d. split; [exact R |]. split; [apply I |]. split.
  - destruct (peek_inv d I) as (t & d1 & E & I1 & P1).
    destruct (after_peek d t d1 E) as (B & X); [unfold buffer_inv in I; lia |].
    destruct (buffered_token d1 t B X) as (_ & d2 & N & L & P2).
    exists t, d1, d2. splits. lia.
  - destruct (next_inv d I) as (t1 & d1 & E1 & I1 & Z1).
    destruct (next_inv d1 I1) as (t2 & d2 & E2 & I2 & Z2).
    exists t1, d1, t2, d2. split; [exact E1 |]. split; [exact E2 |].
    unfold buffer_inv in *.
    pose proof (next_pos d _ _ E1 ltac:(lia)) as P1.
    pose proof (next_pos d1 _ _ E2 ltac:(lia)) as P2.
    rewrite Z1 in P2. cbn in P2. destruct P2 as (_ & P2).
    destruct (0 <? peekCount d).
    + rewrite P1 in P2. lia.
    + destruct P1 as (_ & P1). lia.
Qed.

(* ================================================================== *)
(** * DecodeAll *)

Section DecodeAllFacts.

Variable P : M (Quad * option error).

(** The loop follows a run of successful [Decode] calls, appending each
    quad to the slice. *)
Lemma DecodeAll_loop_run d qs d1 :
  decode_run P d qs d1 ->
  forall acc fuel,
    DecodeAll_loop P (List.length qs + fuel) acc d =
    DecodeAll_loop P fuel (acc ++ qs) d1.
Proof.
  induction 1 as [d | d q d1 qs d2 E R IH]; intros acc fuel.
  - rewrite app_nil_r. reflexivity.
  - cbn [List.length Nat.add DecodeAll_loop]. rewrite E. cbn [is_EOF].
    rewrite IH, <- app_assoc. reflexivity.
Qed.

Lemma DecodeAll_loop_stop d qs d1 fuel :
  decode_run P d qs d1 ->
  (List.length qs < fuel)%nat ->
  forall acc,
    DecodeAll_loop P fuel acc d =
    DecodeAll_loop P (fuel - List.length qs) (acc ++ qs) d1.
Proof.
  intros R L acc.
  replace fuel with (List.length qs + (fuel - List.length qs))%nat at 1 by lia.
  apply DecodeAll_loop_run; exact R.
Qed.

(** C1: when the [Decode] call that follows any number of successful ones
    returns a fault (an error other than [io.EOF]), [DecodeAll] returns the
    nil slice together with that fault: the quads decoded before it are
    dropped, wherever the malformed statement sits.  Enough fuel (more than
    the number of quads before the fault) always yields this result. *)
Theorem DecodeAll_fault_discards d qs d1 q e d2 fuel :
  decode_run P d qs d1 ->
  Decode P d1 = (Ret (q, Some e), d2) ->
  e <> io_EOF ->
  (List.length qs < fuel)%nat ->
  DecodeAll P fuel d = Some (Ret ([], Some e), d2).
Proof.
  intros R E NE L. unfold DecodeAll.
  rewrite (DecodeAll_loop_stop d qs d1 fuel R L).
  destruct (fuel - List.length qs)%nat as [| n] eqn:F; [lia |].
  cbn [DecodeAll_loop]. rewrite E.
  destruct e as [| msg]; [congruence |]. reflexivity.
Qed.

(** C2: when [N] successive [Decode] calls succeed and the next one reports
    [io.EOF], [DecodeAll] returns exactly the [N] quads of these calls, in
    the order of the calls, and a nil error.  Enough fuel (more than [N])
    always yields this result. *)
Theorem DecodeAll_returns_all d qs d1 q d2 fuel :
  decode_run P d qs d1 ->
  Decode P d1 = (Ret (q, Some io_EOF), d2) ->
  (List.length qs < fuel)%nat ->
  DecodeAll P fuel d = Some (Ret (qs, None), d2).
Proof.
  intros R E L. unfold DecodeAll.
  rewrite (DecodeAll_loop_stop d qs d1 fuel R L).
  destruct (fuel - List.length qs)%nat as [| n] eqn:F; [lia |].
  cbn [DecodeAll_loop]. rewrite E. reflexivity.
Qed.

End DecodeAllFacts.

Ltac decode_steps :=
  repeat (eapply decode_run_cons; [vm_compute; reflexivity |]);
  apply decode_run_nil.

Lemma DecodeAll_fault_discards_witness :
  exists e d2,
    e <> io_EOF /\
    DecodeAll (parseNQ show_kind show_format 4) 3
      (NewQuadDecoder
         (reader_of (stmt_plain 1 ++ stmt_bad 2 ++ stmt_graph 3)) FormatNQ)
    = Some (Ret ([], Some e), d2).
Proof.
  eexists; eexists; split;
    [| eapply (DecodeAll_fault_discards (parseNQ show_kind show_format 4));
       [ decode_steps
       | vm_compute; reflexivity
       | discriminate
       | cbn; lia ] ].
  discriminate.
Defined.

Lemma DecodeAll_returns_all_witness :
  exists qs d2,
    List.length qs = 2%nat /\
    DecodeAll (parseNQ show_kind show_format 4) 3
      (NewQuadDecoder (reader_of (stmt_plain 1 ++ stmt_graph 2)) FormatNQ)
    = Some (Ret (qs, None), d2).
Proof.
  eexists; eexists; split;
    [| eapply (DecodeAll_returns_all (parseNQ show_kind show_format 4));
       [ decode_steps
       | vm_compute; reflexivity
       | cbn; lia ] ].
  reflexivity.
Defined.

(* ================================================================== *)
(** * Error plumbing *)

Lemma append_empty_r (s : string) : s ++ "" = s.
Proof. induction s as [| c s IH]; cbn; [| rewrite IH]; reflexivity. Qed.

Lemma bind_Ret_inv {A B} (m : M A) (k : A -> M B) d b d' :
  bind m k d = (Ret b, d') ->
  exists a d1, m d = (Ret a, d1) /\ k a d1 = (Ret b, d').
Proof.
  unfold bind. destruct (m d) as [[a | p] d1]; intros E.
  - exists a, d1. auto.
  - discriminate.
Qed.

Section EngineFacts.

Variable tokenType_String : tokenType -> string.
Variable Format_String : Format -> string.

Local Abbreviation Sprintf := (Sprintf tokenType_String Format_String).
Local Abbreviation Errorf := (Errorf tokenType_String Format_String).
Local Abbreviation errorf := (errorf tokenType_String Format_String).
Local Abbreviation unexpected := (unexpected tokenType_String Format_String).
Local Abbreviation expect1As := (expect1As tokenType_String Format_String).
Local Abbreviation expectAs := (expectAs tokenType_String Format_String).
Local Abbreviation parseStatement :=
  (parseStatement tokenType_String Format_String).
Local Abbreviation fault_message := (fault_message tokenType_String).

(** [fmt.Sprintf("%s", format)] is [format]. *)
Lemma Sprintf_s (s : string) : Sprintf "%s" [ArgString s] = s.
Proof. cbn. apply append_empty_r. Qed.

(** [errorf] never returns: it panics with the error it formats. *)
Lemma errorf_panics format args d :
  errorf format args d = (Panic (PanicError (Errorf format args)), d).
Proof. unfold errorf. rewrite Sprintf_s. reflexivity. Qed.

Lemma syntax_error_message (t : token) :
  Sprintf "%d:%d: syntax error: %s"
          [ArgInt (line t); ArgInt (col t); ArgString (text t)]
  = decimal (line t) ++ ":" ++ decimal (col t)
      ++ ": syntax error: " ++ text t.
Proof. cbn. rewrite append_empty_r. reflexivity. Qed.

Lemma syntax_error_message_v (t : token) :
  Sprintf "%d:%d: syntax error: %v"
          [ArgInt (line t); ArgInt (col t); ArgString (text t)]
  = decimal (line t) ++ ":" ++ decimal (col t)
      ++ ": syntax error: " ++ text t.
Proof. cbn. rewrite append_empty_r. reflexivity. Qed.

Lemma unexpected_message (t : token) (context : string) :
  Sprintf "%d:%d unexpected %v as %s"
          [ArgInt (line t); ArgInt (col t); ArgTokenType (typ t);
           ArgString context]
  = decimal (line t) ++ ":" ++ decimal (col t)
      ++ " unexpected " ++ tokenType_String (typ t) ++ " as " ++ context.
Proof. cbn. rewrite append_empty_r. reflexivity. Qed.

Lemma unexpected_panics t context d :
  unexpected t context d =
  (Panic (PanicError (fmt_error
     (decimal (line t) ++ ":" ++ decimal (col t)
        ++ " unexpected " ++ tokenType_String (typ t)
        ++ " as " ++ context))), d).
Proof.
  unfold unexpected. rewrite errorf_panics.
  unfold Errorf. rewrite unexpected_message. reflexivity.
Qed.

Lemma fault_message_positioned context t :
  positioned t (fault_message context t).
Proof.
  unfold positioned, fault_message.
  destruct (tokenType_eqb (typ t) tokenError); eexists; reflexivity.
Qed.

(** What [expect1As] does, case by case. *)
Lemma expect1As_cases context expected d :
  match next d with
  | (Ret t, d1) =>
      expect1As context expected d =
      if tokenType_eqb (typ t) expected then (Ret t, d1)
      else (Panic (PanicError (fmt_error (fault_message context t))), d1)
  | (Panic p, d1) => expect1As context expected d = (Panic p, d1)
  end.
Proof.
  unfold expect1As, bind.
  destruct (next d) as [[t | p] d1]; [| reflexivity].
  unfold fault_message.
  destruct (tokenType_eqb (typ t) expected); cbn [negb]; [reflexivity |].
  destruct (tokenType_eqb (typ t) tokenError).
  - rewrite errorf_panics. unfold Errorf.
    rewrite syntax_error_message. reflexivity.
  - rewrite unexpected_panics. reflexivity.
Qed.

(** What [expectAs] does, case by case. *)
Lemma expectAs_cases context expected d :
  match next d with
  | (Ret t, d1) =>
      expectAs context expected d =
      if one_of (typ t) expected then (Ret t, d1)
      else (Panic (PanicError (fmt_error (fault_message context t))), d1)
  | (Panic p, d1) => expectAs context expected d = (Panic p, d1)
  end.
Proof.
  unfold expectAs, bind.
  destruct (next d) as [[t | p] d1]; [| reflexivity].
  unfold fault_message.
  destruct (one_of (typ t) expected); [reflexivity |].
  destruct (tokenType_eqb (typ t) tokenError).
  - rewrite errorf_panics. unfold Errorf.
    rewrite syntax_error_message_v. reflexivity.
  - rewrite unexpected_panics. reflexivity.
Qed.

(** C7: every fault raised by the expectation checks [expect1As] and
    [expectAs] concerns the token [next] has just handed out, and its
    message starts with that token's line and column, [line:col].  For a
    lexical-error token the message goes on with the lexer's diagnostic
    text; for any other token (a structural fault) it goes on with the
    token's kind and the parsing context in which it was unexpected. *)
Theorem expectation_fault_message
  (context : string) (d : QuadDecoder) (e : error) (d' : QuadDecoder)
  (H : (exists expected,
          expect1As context expected d = (Panic (PanicError e), d')) \/
       (exists expected,
          expectAs context expected d = (Panic (PanicError e), d'))) :
  exists t,
    next d = (Ret t, d') /\
    positioned t (Error e) /\
    Error e =
      if tokenType_eqb (typ t) tokenError
      then decimal (line t) ++ ":" ++ decimal (col t)
             ++ ": syntax error: " ++ text t
      else decimal (line t) ++ ":" ++ decimal (col t)
             ++ " unexpected " ++ tokenType_String (typ t)
             ++ " as " ++ context.
Proof.
  assert (N : forall p d1, next d = (Panic p, d1) -> p = index_out_of_range).
  { intros p d1. unfold next.
    destruct (index _ _); intros E; inversion E; reflexivity. }
  destruct H as [[expected E] | [expected E]].
  - pose proof (expect1As_cases context expected d) as C.
    destruct (next d) as [[t | p] d1] eqn:Nx.
    + rewrite E in C. destruct (tokenType_eqb (typ t) expected);
        inversion C; subst.
      exists t. split; [reflexivity |].
      split; [apply fault_message_positioned | reflexivity].
    + rewrite E in C. inversion C; subst.
      specialize (N _ _ eq_refl). discriminate.
  - pose proof (expectAs_cases context expected d) as C.
    destruct (next d) as [[t | p] d1] eqn:Nx.
    + rewrite E in C. destruct (one_of (typ t) expected);
        inversion C; subst.
      exists t. split; [reflexivity |].
      split; [apply fault_message_positioned | reflexivity].
    + rewrite E in C. inversion C; subst.
      specialize (N _ _ eq_refl). discriminate.
Qed.

End EngineFacts.

Lemma expectation_fault_message_witness :
  let d := NewQuadDecoder (reader_of [tDot 4 12]) FormatNQ in
  exists t d',
    next d = (Ret t, d') /\
    positioned t "4:12 unexpected Dot as predicate".
Proof.
  intros d.
  destruct (expectation_fault_message show_kind show_format "predicate" d
              (fmt_error "4:12 unexpected Dot as predicate")
              (snd (next d)))
    as (t & N & Pz & _).
  - left. exists tokenIRIAbs. vm_compute. reflexivity.
  - exists t, (snd (next d)). split; [exact N | exact Pz].
Defined.

(* ================================================================== *)
(** * What no decoder method does *)

Create HintDb tidy.

Lemma tidy_ret {A} (a : A) : tidy (ret a).
Proof.
  intros d r d' E. inversion E; subst. splits. intros p C. discriminate.
Qed.

Lemma tidy_get : tidy get.
Proof.
  intros d r d' E. inversion E; subst. splits. intros p C. discriminate.
Qed.

Lemma tidy_bind {A B} (m : M A) (k : A -> M B) :
  tidy m -> (forall a, tidy (k a)) -> tidy (bind m k).
Proof.
  intros Tm Tk d r d' E. unfold bind in E.
  destruct (m d) as [[a | p] d1] eqn:Em.
  - destruct (Tm _ _ _ Em) as (G1 & F1 & _).
    destruct (Tk a _ _ _ E) as (G2 & F2 & N2).
    splits; congruence.
  - destruct (Tm _ _ _ Em) as (G1 & F1 & N1).
    inversion E; subst. splits.
    intros q C. inversion C; subst. apply (N1 q). reflexivity.
Qed.

Lemma tidy_next : tidy next.
Proof.
  intros d r d' E. unfold next in E.
  destruct (0 <? peekCount d); cbn in E;
    match type of E with
    | match ?x with _ => _ end = _ => destruct x
    end; inversion E; subst; cbn; splits;
    intros p C; inversion C; discriminate.
Qed.

Lemma tidy_peek : tidy peek.
Proof.
  intros d r d' E. unfold peek in E.
  destruct (0 <? peekCount d); cbn in E.
  - destruct (index _ _); inversion E; subst; splits;
      intros p C; inversion C; discriminate.
  - inversion E; subst; cbn; splits. intros p C; discriminate.
Qed.

#[local] Hint Resolve tidy_ret tidy_get tidy_next tidy_peek : tidy.

Section ParserFacts.

Variable tokenType_String : tokenType -> string.
Variable Format_String : Format -> string.
Variable skip_fuel : nat.

Local Abbreviation expect1As := (expect1As tokenType_String Format_String).
Local Abbreviation expectAs := (expectAs tokenType_String Format_String).
Local Abbreviation errorf := (errorf tokenType_String Format_String).
Local Abbreviation parseLiteralSuffix :=
  (parseLiteralSuffix tokenType_String Format_String).
Local Abbreviation parseStatement :=
  (parseStatement tokenType_String Format_String).
Local Abbreviation parseNQ_body :=
  (parseNQ_body tokenType_String Format_String skip_fuel).
Local Abbreviation parseNQ :=
  (parseNQ tokenType_String Format_String skip_fuel).

Lemma tidy_expect1As context expected : tidy (expect1As context expected).
Proof.
  intros d r d' E.
  pose proof (expect1As_cases tokenType_String Format_String
                context expected d) as C.
  destruct (next d) as [[t | p] d1] eqn:N;
    destruct (tidy_next _ _ _ N) as (G & F & NP).
  - rewrite E in C. destruct (tokenType_eqb (typ t) expected);
      inversion C; subst; splits; intros q Q; inversion Q; discriminate.
  - rewrite E in C. inversion C; subst.
    splits; intros q Q; inversion Q; subst; apply (NP q); reflexivity.
Qed.

Lemma tidy_expectAs context expected : tidy (expectAs context expected).
Proof.
  intros d r d' E.
  pose proof (expectAs_cases tokenType_String Format_String
                context expected d) as C.
  destruct (next d) as [[t | p] d1] eqn:N;
    destruct (tidy_next _ _ _ N) as (G & F & NP).
  - rewrite E in C. destruct (one_of (typ t) expected);
      inversion C; subst; splits; intros q Q; inversion Q; discriminate.
  - rewrite E in C. inversion C; subst.
    splits; intros q Q; inversion Q; subst; apply (NP q); reflexivity.
Qed.

Hint Resolve tidy_expect1As tidy_expectAs : tidy.

Ltac tidy_steps :=
  repeat first
    [ solve [auto with tidy]
    | match goal with
      | |- tidy (match ?x with _ => _ end) => destruct x
      end
    | apply tidy_bind; [| intros ?; cbv beta] ].

Lemma tidy_parseLiteralSuffix o : tidy (parseLiteralSuffix o).
Proof. unfold parseLiteralSuffix. tidy_steps. Qed.

Lemma tidy_parseGraphLabel : tidy parseGraphLabel.
Proof. unfold parseGraphLabel. tidy_steps. Qed.

Hint Resolve tidy_parseLiteralSuffix tidy_parseGraphLabel : tidy.

Lemma tidy_skipLeading fuel : tidy (skipLeading fuel).
Proof. induction fuel as [| fuel IH]; cbn [skipLeading]; tidy_steps. Qed.

Hint Resolve tidy_skipLeading : tidy.

Lemma tidy_parseStatement : tidy parseStatement.
Proof. unfold parseStatement. tidy_steps. Qed.

Hint Resolve tidy_parseStatement : tidy.

Lemma tidy_parseNQ_body : tidy parseNQ_body.
Proof. unfold parseNQ_body. tidy_steps. Qed.

(** [Decode], case by case on what the parser body does. *)
Lemma Decode_cases (d : QuadDecoder) :
  match parseNQ_body d with
  | (Ret (q, err), d') => Decode parseNQ d = (Ret (q, err), d')
  | (Panic (PanicError e), d') =>
      Decode parseNQ d = (Ret (zeroQuad, Some e), d')
  | (Panic (PanicRuntime m), d') =>
      Decode parseNQ d = (Panic (PanicRuntime m), d')
  end.
Proof.
  unfold Decode, parseNQ, deferred_recover.
  destruct (parseNQ_body d) as [[[q err] | [e | m]] d']; reflexivity.
Qed.

Lemma tidy_Decode : tidy (Decode parseNQ).
Proof.
  intros d r d' E. pose proof (Decode_cases d) as C.
  destruct (parseNQ_body d) as [[[q err] | [e | m]] d1] eqn:B;
    destruct (tidy_parseNQ_body _ _ _ B) as (G & F & NP);
    rewrite E in C; inversion C; subst; splits;
    intros p Q; inversion Q; discriminate.
Qed.

End ParserFacts.

(* ================================================================== *)
(** * The Decode boundary *)

Section DecodeFacts.

Variable tokenType_String : tokenType -> string.
Variable Format_String : Format -> string.
Variable skip_fuel : nat.

Local Abbreviation errorf := (errorf tokenType_String Format_String).
Local Abbreviation Errorf := (Errorf tokenType_String Format_String).
Local Abbreviation parseStatement :=
  (parseStatement tokenType_String Format_String).
Local Abbreviation parseNQ_body :=
  (parseNQ_body tokenType_String Format_String skip_fuel).
Local Abbreviation parseNQ :=
  (parseNQ tokenType_String Format_String skip_fuel).
(** C3: a grammar violation leaves the parsing routine as a panic carrying
    an ordinary error ([errorf] never returns), and [recover], deferred
    once around the parser body, turns exactly such a panic into the error
    result of [Decode]; a panic carrying a [runtime.Error] is raised again
    by [recover] and leaves [Decode] as a panic, never as an error result.
    Both paths occur: on a statement with a dot for predicate [Decode]
    returns an error, and in a state whose [peekCount] points outside the
    token array it panics. *)
Theorem violations_caught_at_Decode (d : QuadDecoder) :
  (forall format args,
      errorf format args d = (Panic (PanicError (Errorf format args)), d)) /\
  (forall e errp, recover (Some (PanicError e)) errp = Ret (Some e)) /\
  (forall m errp,
      recover (Some (PanicRuntime m)) errp = Panic (PanicRuntime m)) /\
  (forall errp, recover None errp = Ret errp) /\
  match parseNQ_body d with
  | (Ret (q, err), d') => Decode parseNQ d = (Ret (q, err), d')
  | (Panic (PanicError e), d') =>
      Decode parseNQ d = (Ret (zeroQuad, Some e), d')
  | (Panic (PanicRuntime m), d') =>
      Decode parseNQ d = (Panic (PanicRuntime m), d')
  end /\
  (exists e d',
      parseNQ_body (NewQuadDecoder (reader_of (stmt_bad 1)) FormatNQ)
        = (Panic (PanicError e), d') /\
      Decode parseNQ (NewQuadDecoder (reader_of (stmt_bad 1)) FormatNQ)
        = (Ret (zeroQuad, Some e), d')) /\
  (exists d0 m d',
      Decode parseNQ d0 = (Panic (PanicRuntime m), d')).
Proof.
  split; [intros; apply errorf_panics |].
  split; [reflexivity |]. split; [reflexivity |]. split; [reflexivity |].
  split; [apply Decode_cases |].
  split.
  - destruct skip_fuel; eexists; eexists; split; vm_compute; reflexivity.
  - exists {| l := newLineLexer (reader_of []); format := FormatNQ;
              DefaultGraph := Blank "_:defaultGraph";
              tokens := mkTokens zeroToken zeroToken zeroToken;
              peekCount := 7 |}.
    destruct skip_fuel; eexists; eexists; vm_compute; reflexivity.
Qed.

End DecodeFacts.

(* ================================================================== *)
(** * Construction *)

(** C6, on the code: [NewTripleDecoder] panics at construction for the one
    format without a triple parser and returns a decoder for the three
    others; [NewQuadDecoder] has no such check.  Asked for a Turtle quad
    decoder, for which no quad parser exists, it raises nothing, records
    the format, and the decoder it returns parses N-Quads. *)
Theorem NewQuadDecoder_accepts_every_format
  (tokenType_String : tokenType -> string) (Format_String : Format -> string)
  (skip_fuel : nat) (r : Reader) :
  NewTripleDecoder tokenType_String Format_String r FormatNQ
    = Panic (PanicError (fmt_error
        ("Decoder for serialization format " ++ Format_String FormatNQ
           ++ " not implemented"))) /\
  NewTripleDecoder tokenType_String Format_String r FormatNT
    = Ret (ntDecoder r) /\
  NewTripleDecoder tokenType_String Format_String r FormatRDFXML
    = Ret (rdfxmlDecoder r) /\
  NewTripleDecoder tokenType_String Format_String r FormatTTL
    = Ret (ttlDecoder r) /\
  (forall f, format (NewQuadDecoder r f) = f /\
             buffer_inv (NewQuadDecoder r f)) /\
  fst (Decode (parseNQ tokenType_String Format_String skip_fuel)
         (NewQuadDecoder (reader_of (stmt_graph 1)) FormatTTL))
    = Ret ({| Subj := Some (IRI "http://a");
              Pred := Some (IRI "http://b");
              Obj := Some (Literal "x" "" "");
              Ctx := Some (IRI "http://g") |}, None).
Proof.
  split; [reflexivity |].
  split; [reflexivity |]. split; [reflexivity |]. split; [reflexivity |].
  split.
  - intros f. split; [reflexivity | apply NewQuadDecoder_inv].
  - destruct skip_fuel; vm_compute; reflexivity.
Qed.

(* ================================================================== *)
(** * The buffer is a cursor over the token sequence *)

Lemma NewQuadDecoder_synced (r : Reader) (f : Format) :
  synced (NewQuadDecoder r f).
Proof.
  split; [apply NewQuadDecoder_inv |]. cbn. discriminate.
Qed.

Lemma synced_cases (d : QuadDecoder) :
  synced d ->
  (peekCount d = 0 /\ cursor d = pos (l d)) \/
  (peekCount d = 1 /\ pos (l d) = S (cursor d) /\
   slot0 (tokens d) = source (l d) (cursor d)).
Proof.
  intros (I & B). unfold buffer_inv in I. unfold cursor.
  assert (C : peekCount d = 0 \/ peekCount d = 1) by lia.
  destruct C as [C | C]; rewrite C.
  - left. split; [reflexivity |]. cbn. lia.
  - right. destruct (B C) as (P1 & S0). split; [reflexivity |].
    change (Z.to_nat 1) with 1%nat. split; [lia | exact S0].
Qed.

Lemma synced_intro (d : QuadDecoder) :
  (peekCount d = 0 \/
   (peekCount d = 1 /\ (1 <= pos (l d))%nat /\
    slot0 (tokens d) = source (l d) (pos (l d) - 1)%nat)) ->
  synced d.
Proof.
  unfold synced, buffer_inv. intros [C | (C & P1 & S0)]; rewrite C.
  - split; [lia | discriminate].
  - split; [lia | auto].
Qed.

Lemma synced_next (d : QuadDecoder) :
  synced d ->
  exists d',
    next d = (Ret (source (l d) (cursor d)), d') /\
    synced d' /\ cursor d' = S (cursor d) /\
    source (l d') = source (l d).
Proof.
  intros S. destruct (synced_cases d S) as [(C & K) | (C & K & S0)];
    unfold next; rewrite C; cbn -[Nat.sub].
  - rewrite K. eexists. split; [reflexivity |].
    split; [apply synced_intro; left; reflexivity |].
    unfold cursor; cbn. split; [lia | reflexivity].
  - rewrite S0. eexists. split; [reflexivity |].
    split; [apply synced_intro; left; reflexivity |].
    unfold cursor; cbn. split; [lia | reflexivity].
Qed.

Lemma synced_peek (d : QuadDecoder) :
  synced d ->
  exists d',
    peek d = (Ret (source (l d) (cursor d)), d') /\
    synced d' /\ cursor d' = cursor d /\
    source (l d') = source (l d).
Proof.
  intros S. destruct (synced_cases d S) as [(C & K) | (C & K & S0)];
    unfold peek; rewrite C; cbn -[Nat.sub].
  - rewrite K. eexists. split; [reflexivity |].
    split.
    + apply synced_intro. right. cbn. rewrite Nat.sub_0_r. splits. lia.
    + unfold cursor; cbn [l pos peekCount].
      change (Z.to_nat 1) with 1%nat. split; [lia | reflexivity].
  - rewrite S0. exists d. split; [reflexivity |].
    split; [exact S |]. split; reflexivity.
Qed.

Lemma synced_exec (o : op) (d : QuadDecoder) :
  synced d ->
  exists d',
    exec o d = (Ret (source (l d) (cursor d)), d') /\
    synced d' /\
    cursor d' = (match o with OpNext => S (cursor d) | OpPeek => cursor d end)
    /\ source (l d') = source (l d).
Proof.
  intros S. destruct o; cbn [exec].
  - apply synced_next; exact S.
  - apply synced_peek; exact S.
Qed.

Lemma synced_outputs (ops : list op) :
  forall d, synced d ->
  outputs ops d = Some (stream_view (source (l d)) (cursor d) ops).
Proof.
  induction ops as [| o ops IH]; intros d S; cbn [outputs stream_view].
  - reflexivity.
  - destruct (synced_exec o d S) as (d' & E & S' & C & Src).
    rewrite E, (IH d' S'), Src, C. destruct o; reflexivity.
Qed.

Lemma synced_run (ops : list op) :
  forall d, synced d ->
  exists d',
    run ops d = Some d' /\ synced d' /\
    cursor d' = (cursor d + taken ops)%nat /\
    source (l d') = source (l d).
Proof.
  induction ops as [| o ops IH]; intros d S; cbn [run taken].
  - exists d. split; [reflexivity |]. split; [exact S |].
    split; [lia | reflexivity].
  - destruct (synced_exec o d S) as (d1 & E & S1 & C & Src).
    rewrite E. destruct (IH d1 S1) as (d' & R & S' & C' & Src').
    exists d'. split; [exact R |]. split; [exact S' |].
    split; [| congruence].
    rewrite C', C. destruct o; cbn [taken]; lia.
Qed.

(** X1: a fresh decoder answers every sequence of [next] and [peek] calls
    as a cursor over the lexer's token sequence does: no call panics, each
    call returns the token under the cursor, [next] moves the cursor on by
    one and [peek] leaves it.  So the [next] calls return the lexer's
    tokens in order, none lost and none twice, however [peek] calls are
    interleaved. *)
Theorem buffer_is_a_cursor (r : Reader) (f : Format) (ops : list op) :
  outputs ops (NewQuadDecoder r f) = Some (stream_view r 0 ops).
Proof.
  apply (synced_outputs ops (NewQuadDecoder r f) (NewQuadDecoder_synced r f)).
Qed.

(** X2: [peek] followed by [next] is [next]: in every state whose
    [peekCount] indexes the array, looking at the token first changes
    neither the token [next] returns nor the state it leaves. *)
Theorem peek_then_next_is_next (d : QuadDecoder)
  (H : 0 <= peekCount d <= 3) :
  (peek ;;; next) d = next d.
Proof.
  assert (C : peekCount d = 0 \/ peekCount d = 1 \/
              peekCount d = 2 \/ peekCount d = 3) by lia.
  destruct d as [[src p] fm dg tk pc]; cbn in C.
  destruct C as [C | [C | [C | C]]]; subst pc; reflexivity.
Qed.

Lemma peek_then_next_is_next_witness :
  let d := NewQuadDecoder (reader_of (stmt_plain 1)) FormatNQ in
  (peek ;;; next) d = next d /\
  (peek ;;; next) (snd (peek d)) = next (snd (peek d)).
Proof.
  intros d. split.
  - apply (peek_then_next_is_next d). cbn. lia.
  - apply (peek_then_next_is_next (snd (peek d))). cbn. lia.
Defined.

Lemma frugal_next : frugal next.
Proof.
  intros d r d' E. unfold next in E.
  destruct (0 <? peekCount d); cbn in E;
    match type of E with
    | match ?x with _ => _ end = _ => destruct x
    end; inversion E; subst; cbn; splits; lia.
Qed.

Lemma frugal_peek : frugal peek.
Proof.
  intros d r d' E. unfold peek in E.
  destruct (0 <? peekCount d); cbn in E.
  - destruct (index _ _); inversion E; subst; splits; lia.
  - inversion E; subst; cbn; splits; lia.
Qed.

(* ================================================================== *)
(** * What the expectation checks guarantee *)

Lemma tokenType_eqb_eq (a b : tokenType) :
  tokenType_eqb a b = true <-> a = b.
Proof. destruct a, b; cbn; split; intros E; congruence. Qed.

Lemma one_of_In (ty : tokenType) (expected : list tokenType) :
  one_of ty expected = true <-> In ty expected.
Proof.
  induction expected as [| e es IH]; cbn.
  - split; [discriminate | intros []].
  - destruct (tokenType_eqb ty e) eqn:E.
    + apply tokenType_eqb_eq in E. split; auto.
    + rewrite IH. split; [auto |].
      intros [C | C]; [| exact C].
      subst e. destruct ty; discriminate.
Qed.

Section ExpectationFacts.

Variable tokenType_String : tokenType -> string.
Variable Format_String : Format -> string.

Local Abbreviation expect1As := (expect1As tokenType_String Format_String).
Local Abbreviation expectAs := (expectAs tokenType_String Format_String).
Local Abbreviation fault_message := (fault_message tokenType_String).
Local Abbreviation expect1As_cases :=
  (expect1As_cases tokenType_String Format_String).
Local Abbreviation expectAs_cases :=
  (expectAs_cases tokenType_String Format_String).

(** X3: [expect1As] returns a token exactly when [next] hands out a token
    of the expected type: a returned token has the expected type (what the
    doc comment of [expect1As] promises), it is the token [next] returns,
    and the decoder is left as [next] leaves it. *)
Theorem expect1As_guarantees context expected d t d' :
  expect1As context expected d = (Ret t, d')
  <-> next d = (Ret t, d') /\ typ t = expected.
Proof.
  pose proof (expect1As_cases context expected d) as C.
  destruct (next d) as [[t0 | p] d1]; rewrite C; clear C.
  - destruct (tokenType_eqb (typ t0) expected) eqn:E; split.
    + intros R. inversion R; subst. split; [reflexivity |].
      apply tokenType_eqb_eq; exact E.
    + intros (R & _). exact R.
    + discriminate.
    + intros (R & T). assert (Q : t0 = t) by congruence. subst t0.
      apply tokenType_eqb_eq in T. congruence.
  - split; [discriminate | intros (R & _); discriminate].
Qed.

(** X4: [expectAs] returns a token exactly when [next] hands out a token
    whose type is one of the expected types; the order and the repetitions
    of the expected types do not matter, and with no expected type at all
    [expectAs] never returns. *)
Theorem expectAs_guarantees context expected d t d' :
  expectAs context expected d = (Ret t, d')
  <-> next d = (Ret t, d') /\ In (typ t) expected.
Proof.
  pose proof (expectAs_cases context expected d) as C.
  destruct (next d) as [[t0 | p] d1]; rewrite C; clear C.
  - destruct (one_of (typ t0) expected) eqn:E; split.
    + intros R. inversion R; subst. split; [reflexivity |].
      apply one_of_In; exact E.
    + intros (R & _). exact R.
    + discriminate.
    + intros (R & T). assert (Q : t0 = t) by congruence. subst t0.
      apply one_of_In in T. congruence.
  - split; [discriminate | intros (R & _); discriminate].
Qed.

(** X5: on a single expected type the two expectation checks agree, in
    every state and whatever the token: same returned token or same fault
    (with the same message), same decoder state. *)
Theorem expectAs_singleton_is_expect1As context expected d :
  expectAs context [expected] d = expect1As context expected d.
Proof.
  pose proof (expect1As_cases context expected d) as C1.
  pose proof (expectAs_cases context [expected] d) as CA.
  destruct (next d) as [[t | p] d1]; rewrite C1, CA; [| reflexivity].
  cbn [one_of]. destruct (tokenType_eqb (typ t) expected); reflexivity.
Qed.

Lemma expect1As_state context expected d :
  snd (expect1As context expected d) = snd (next d).
Proof.
  pose proof (expect1As_cases context expected d) as C.
  destruct (next d) as [[t | p] d1]; rewrite C; [| reflexivity].
  destruct (tokenType_eqb (typ t) expected); reflexivity.
Qed.

Lemma expectAs_state context expected d :
  snd (expectAs context expected d) = snd (next d).
Proof.
  pose proof (expectAs_cases context expected d) as C.
  destruct (next d) as [[t | p] d1]; rewrite C; [| reflexivity].
  destruct (one_of (typ t) expected); reflexivity.
Qed.

(** X6: in a well-formed buffer state an expectation check never raises a
    runtime panic, and whether it returns or faults it has taken exactly
    the token it judged: the decoder is left as [next] leaves it, with an
    empty, well-formed buffer, so that a fault does not corrupt the buffer
    state. *)
Theorem expectation_takes_the_token context d (H : buffer_inv d) :
  exists t d',
    next d = (Ret t, d') /\ buffer_inv d' /\ peekCount d' = 0 /\
    (forall expected,
        expect1As context expected d =
        if tokenType_eqb (typ t) expected then (Ret t, d')
        else (Panic (PanicError (fmt_error (fault_message context t))), d'))
    /\
    (forall expected,
        expectAs context expected d =
        if one_of (typ t) expected then (Ret t, d')
        else (Panic (PanicError (fmt_error (fault_message context t))), d')).
Proof.
  destruct (next_inv d H) as (t & d' & N & I & Z).
  exists t, d'. split; [exact N |]. split; [exact I |]. split; [exact Z |].
  split; intros expected.
  - pose proof (expect1As_cases context expected d) as C.
    rewrite N in C. exact C.
  - pose proof (expectAs_cases context expected d) as C.
    rewrite N in C. exact C.
Qed.

(** X7: [next], [peek], [expect1As] and [expectAs] each pull at most one
    token from the lexer per call; none moves the lexer back, changes the
    token sequence it reads, or touches the format or the default graph of
    the decoder, whether the call returns or panics. *)
Theorem methods_are_frugal :
  frugal next /\ frugal peek /\
  (forall context expected, frugal (expect1As context expected)) /\
  (forall context expected, frugal (expectAs context expected)).
Proof.
  split; [exact frugal_next |]. split; [exact frugal_peek |].
  split; intros context expected d r d' E.
  - pose proof (expect1As_state context expected d) as S.
    rewrite E in S. cbn [snd] in S. subst d'.
    apply (frugal_next d (fst (next d))). apply surjective_pairing.
  - pose proof (expectAs_state context expected d) as S.
    rewrite E in S. cbn [snd] in S. subst d'.
    apply (frugal_next d (fst (next d))). apply surjective_pairing.
Qed.

(** X8: whatever [next] and [peek] calls came before on a fresh decoder, an
    expectation check judges the token under the cursor, the one whose
    index in the lexer's token sequence is the number of [next] calls made
    so far: it returns this token when its type is expected, and otherwise
    faults with the message built from this token. *)
Theorem expectation_at_cursor r f ops d context
  (H : run ops (NewQuadDecoder r f) = Some d) :
  exists d',
    (forall expected,
        expect1As context expected d =
        if tokenType_eqb (typ (r (taken ops))) expected
        then (Ret (r (taken ops)), d')
        else (Panic (PanicError
                (fmt_error (fault_message context (r (taken ops))))), d'))
    /\
    (forall expected,
        expectAs context expected d =
        if one_of (typ (r (taken ops))) expected
        then (Ret (r (taken ops)), d')
        else (Panic (PanicError
                (fmt_error (fault_message context (r (taken ops))))), d')).
Proof.
  destruct (synced_run ops _ (NewQuadDecoder_synced r f))
    as (d0 & R & S & C & Src).
  rewrite H in R. inversion R; subst d0. clear R.
  destruct (synced_next d S) as (d' & N & _).
  rewrite Src, C in N. cbn in N.
  change (cursor (NewQuadDecoder r f)) with 0%nat in N. cbn in N.
  exists d'. split; intros expected.
  - pose proof (expect1As_cases context expected d) as K.
    rewrite N in K. exact K.
  - pose proof (expectAs_cases context expected d) as K.
    rewrite N in K. exact K.
Qed.

End ExpectationFacts.

Lemma expectation_takes_the_token_witness :
  let d := NewQuadDecoder (reader_of (stmt_bad 1)) FormatNQ in
  buffer_inv d /\
  exists t d',
    next d = (Ret t, d') /\ buffer_inv d' /\ peekCount d' = 0 /\
    expect1As show_kind show_format "predicate" tokenDot d =
      (Panic (PanicError
         (fmt_error (fault_message show_kind "predicate" t))), d').
Proof.
  intros d.
  assert (I : buffer_inv d) by (unfold buffer_inv; cbn; lia).
  split; [exact I |].
  destruct (expectation_takes_the_token show_kind show_format "predicate" d I)
    as (t & d' & N & I' & Z & E1 & _).
  exists t, d'. split; [exact N |]. split; [exact I' |]. split; [exact Z |].
  rewrite (E1 tokenDot).
  assert (T : t = tIRI 1 1 "http://a")
    by (vm_compute in N; inversion N; reflexivity).
  rewrite T. reflexivity.
Defined.

Lemma expectation_at_cursor_witness :
  let r := reader_of (stmt_bad 1) in
  exists d d',
    run [OpPeek; OpNext; OpPeek] (NewQuadDecoder r FormatNQ) = Some d /\
    expect1As show_kind show_format "predicate" tokenIRIAbs d =
      (Panic (PanicError (fmt_error "1:12 unexpected Dot as predicate")), d').
Proof.
  intros r.
  destruct (run [OpPeek; OpNext; OpPeek] (NewQuadDecoder r FormatNQ))
    as [d |] eqn:R; [| vm_compute in R; discriminate].
  destruct (expectation_at_cursor show_kind show_format r FormatNQ
              [OpPeek; OpNext; OpPeek] d "predicate" R) as (d' & E1 & _).
  exists d, d'. split; [reflexivity |].
  rewrite (E1 tokenIRIAbs). reflexivity.
Defined.

(* ================================================================== *)
(** * What DecodeAll returns, read backwards *)

Section DecodeAllConverse.

Variable P : M (Quad * option error).

Lemma DecodeAll_loop_returned fuel :
  forall acc d res err d',
    DecodeAll_loop P fuel acc d = Some (Ret (res, err), d') ->
    exists (qs : list Quad) q d1,
      decode_run P d qs d1 /\
      ((err = None /\ res = (acc ++ qs)%list /\
        Decode P d1 = (Ret (q, Some io_EOF), d')) \/
       (exists e, err = Some e /\ e <> io_EOF /\ res = [] /\
                  Decode P d1 = (Ret (q, Some e), d'))).
Proof.
  induction fuel as [| fuel IH]; intros acc d res err d' E;
    cbn [DecodeAll_loop] in E; [discriminate |].
  destruct (Decode P d) as [[[q0 err0] | p] d0] eqn:D; [| discriminate].
  destruct err0 as [[| msg] |]; cbn [is_EOF] in E.
  - inversion E; subst. exists [], q0, d.
    split; [apply decode_run_nil |]. left. rewrite app_nil_r. auto.
  - inversion E; subst. exists [], q0, d.
    split; [apply decode_run_nil |]. right.
    exists (fmt_error msg). splits. discriminate.
  - destruct (IH _ _ _ _ _ E) as (qs & q & d1 & R & K).
    exists (q0 :: qs), q, d1.
    split; [apply (decode_run_cons P d q0 d0 qs d1 D R) |].
    destruct K as [(N & A & L) | (e & N & NE & A & L)].
    + left. rewrite <- app_assoc in A. auto.
    + right. exists e. auto.
Qed.

(** X9: [DecodeAll] never succeeds in part.  Whenever it returns, either
    the error is nil and the slice holds exactly the quads of the [Decode]
    calls made before the one that reported [io.EOF], in call order; or the
    slice is nil and the error is the first fault a [Decode] call returned,
    which is never [io.EOF].  A non-nil error never comes with quads. *)
Theorem DecodeAll_all_or_nothing fuel d res err d'
  (H : DecodeAll P fuel d = Some (Ret (res, err), d')) :
  (err = None /\
   exists q d1,
     decode_run P d res d1 /\ Decode P d1 = (Ret (q, Some io_EOF), d')) \/
  (res = [] /\
   exists e,
     err = Some e /\ e <> io_EOF /\
     exists qs q d1,
       decode_run P d qs d1 /\ Decode P d1 = (Ret (q, Some e), d')).
Proof.
  destruct (DecodeAll_loop_returned fuel [] d res err d' H)
    as (qs & q & d1 & R & [(N & A & L) | (e & N & NE & A & L)]).
  - left. cbn in A. subst res. split; [exact N |]. exists q, d1. auto.
  - right. split; [exact A |]. exists e. split; [exact N |].
    split; [exact NE |]. exists qs, q, d1. auto.
Qed.

(** X10: [DecodeAll] recovers from nothing: when a [Decode] call panics,
    after any number of successful ones, [DecodeAll] leaves with the same
    panic, the decoder being as that call left it. *)
Theorem DecodeAll_propagates_panic d qs d1 p d2 fuel
  (R : decode_run P d qs d1)
  (E : Decode P d1 = (Panic p, d2))
  (L : (List.length qs < fuel)%nat) :
  DecodeAll P fuel d = Some (Panic p, d2).
Proof.
  unfold DecodeAll.
  rewrite (DecodeAll_loop_stop P d qs d1 fuel R L).
  destruct (fuel - List.length qs)%nat as [| n] eqn:F; [lia |].
  cbn [DecodeAll_loop]. rewrite E. reflexivity.
Qed.

End DecodeAllConverse.

Lemma DecodeAll_all_or_nothing_witness :
  let P := parseNQ show_kind show_format 4 in
  let d := NewQuadDecoder
             (reader_of (stmt_plain 1 ++ stmt_bad 2 ++ stmt_graph 3))
             FormatNQ in
  exists res err d',
    DecodeAll P 5 d = Some (Ret (res, err), d') /\
    res = [] /\ err = Some (fmt_error "2:12 unexpected Dot as predicate").
Proof.
  intros P d.
  assert (H : exists res err d',
             DecodeAll P 5 d = Some (Ret (res, err), d') /\
             res = [] /\
             err = Some (fmt_error "2:12 unexpected Dot as predicate"))
    by (eexists; eexists; eexists; split;
        [vm_compute; reflexivity | split; reflexivity]).
  destruct H as (res & err & d' & H & Rs & Er).
  pose proof (DecodeAll_all_or_nothing P 5 d res err d' H) as K.
  exists res, err, d'. split; [exact H |].
  destruct K as [(N & _) | (A & _)]; [congruence |].
  split; [exact A | exact Er].
Defined.

(** A decoder state no sequence of calls reaches: [peekCount] points
    outside the token array, so the next buffer access panics. *)
Lemma DecodeAll_propagates_panic_witness :
  let P := parseNQ show_kind show_format 4 in
  let d := {| l := newLineLexer (reader_of (stmt_plain 1));
              format := FormatNQ;
              DefaultGraph := Blank "_:defaultGraph";
              tokens := mkTokens zeroToken zeroToken zeroToken;
              peekCount := 7 |} in
  exists d2, DecodeAll P 1 d = Some (Panic index_out_of_range, d2).
Proof.
  intros P d. eexists.
  apply (DecodeAll_propagates_panic P d [] d index_out_of_range).
  - apply decode_run_nil.
  - vm_compute. reflexivity.
  - cbn. lia.
Defined.

(* ================================================================== *)
(** * Reading ahead *)

(** X11: the decoder reads ahead of its caller by the buffered token and no
    more.  After any sequence of [next] and [peek] calls on a fresh
    decoder, the number of tokens pulled from the lexer is the number of
    [next] calls plus [peekCount], which is 0 or 1. *)
Theorem reads_ahead_by_peekCount (r : Reader) (f : Format) (ops : list op) :
  exists d,
    run ops (NewQuadDecoder r f) = Some d /\
    Z.of_nat (pos (l d)) = Z.of_nat (taken ops) + peekCount d /\
    0 <= peekCount d <= 1 /\
    source (l d) = r.
Proof.
  destruct (synced_run ops _ (NewQuadDecoder_synced r f))
    as (d & R & S & C & Src).
  exists d. split; [exact R |].
  change (cursor (NewQuadDecoder r f)) with 0%nat in C. cbn in C.
  destruct (synced_cases d S) as [(Z0 & K) | (Z1 & K & _)].
  - rewrite Z0. splits; lia.
  - rewrite Z1. splits; lia.
Qed.

(* ================================================================== *)
(** * End of input *)

Lemma orderly_ret {A} (a : A) : orderly (ret a).
Proof. intros d r d' S E. inversion E; subst. auto. Qed.

Lemma orderly_get : orderly get.
Proof. intros d r d' S E. inversion E; subst. auto. Qed.

Lemma orderly_bind {A B} (m : M A) (k : A -> M B) :
  orderly m -> (forall a, orderly (k a)) -> orderly (bind m k).
Proof.
  intros Om Ok d r d' S E. unfold bind in E.
  destruct (m d) as [[a | p] d1] eqn:Em;
    destruct (Om _ _ _ S Em) as (S1 & Src1).
  - destruct (Ok a _ _ _ S1 E) as (S2 & Src2). split; [exact S2 | congruence].
  - inversion E; subst. auto.
Qed.

Lemma orderly_next : orderly next.
Proof.
  intros d r d' S E. destruct (synced_next d S) as (d2 & N & S2 & _ & Src).
  rewrite N in E. inversion E; subst. auto.
Qed.

Lemma orderly_peek : orderly peek.
Proof.
  intros d r d' S E. destruct (synced_peek d S) as (d2 & N & S2 & _ & Src).
  rewrite N in E. inversion E; subst. auto.
Qed.

Create HintDb orderly.
#[local] Hint Resolve orderly_ret orderly_get orderly_next orderly_peek
  : orderly.

Lemma skipLeading_spec (fuel : nat) :
  forall d, synced d ->
  exists n d',
    skipLeading fuel d = (Ret tt, d') /\
    synced d' /\ source (l d') = source (l d) /\
    cursor d' = (cursor d + n)%nat /\ (n <= fuel)%nat /\
    (forall i, (i < n)%nat ->
               typ (source (l d) (cursor d + i)%nat) = tokenEOL) /\
    ((n < fuel)%nat -> typ (source (l d) (cursor d + n)%nat) <> tokenEOL).
Proof.
  induction fuel as [| fuel IH]; intros d Sy.
  - exists 0%nat, d. cbn [skipLeading]. unfold ret.
    split; [reflexivity |]. split; [exact Sy |]. split; [reflexivity |].
    split; [lia |]. split; [lia |]. split; intros; lia.
  - cbn [skipLeading]. unfold bind at 1.
    destruct (synced_peek d Sy) as (d1 & Pk & S1 & C1 & Src1). rewrite Pk.
    destruct (typ (source (l d) (cursor d))) eqn:T;
      try (exists 0%nat, d1; unfold ret;
           split; [reflexivity |]; split; [exact S1 |];
           split; [exact Src1 |]; split; [lia |]; split; [lia |];
           split; [intros; lia |];
           intros _; rewrite Nat.add_0_r, T; discriminate).
    unfold bind at 1.
    destruct (synced_next d1 S1) as (d2 & N & S2 & C2 & Src2). rewrite N.
    destruct (IH d2 S2) as (n & d' & E & S' & Src' & C' & L & B & St).
    exists (S n), d'. split; [exact E |]. split; [exact S' |].
    split; [congruence |]. split; [lia |]. split; [lia |].
    assert (Q : forall j, (cursor d2 + j = cursor d + S j)%nat) by (intros; lia).
    assert (SrcQ : source (l d2) = source (l d)) by congruence.
    split.
    + intros i Hi. destruct i as [| j].
      * rewrite Nat.add_0_r. exact T.
      * rewrite <- Q, <- SrcQ. apply B. lia.
    + intros Hn. rewrite <- Q, <- SrcQ. apply St. lia.
Qed.

Lemma orderly_skipLeading (fuel : nat) : orderly (skipLeading fuel).
Proof.
  intros d r d' S E.
  destruct (skipLeading_spec fuel d S) as (n & d2 & E2 & S2 & Src & _).
  rewrite E2 in E. inversion E; subst. auto.
Qed.

#[local] Hint Resolve orderly_skipLeading : orderly.

Section EndOfInput.

Variable tokenType_String : tokenType -> string.
Variable Format_String : Format -> string.
Variable skip_fuel : nat.

Local Abbreviation expect1As := (expect1As tokenType_String Format_String).
Local Abbreviation expectAs := (expectAs tokenType_String Format_String).
Local Abbreviation parseLiteralSuffix :=
  (parseLiteralSuffix tokenType_String Format_String).
Local Abbreviation parseStatement :=
  (parseStatement tokenType_String Format_String).
Local Abbreviation parseNQ_body :=
  (parseNQ_body tokenType_String Format_String skip_fuel).
Local Abbreviation parseNQ :=
  (parseNQ tokenType_String Format_String skip_fuel).

Lemma orderly_expect1As context expected :
  orderly (expect1As context expected).
Proof.
  intros d r d' S E.
  pose proof (expect1As_state tokenType_String Format_String
                context expected d) as Q.
  rewrite E in Q. cbn [snd] in Q. subst d'.
  apply (orderly_next d (fst (next d)) _ S). apply surjective_pairing.
Qed.

Lemma orderly_expectAs context expected :
  orderly (expectAs context expected).
Proof.
  intros d r d' S E.
  pose proof (expectAs_state tokenType_String Format_String
                context expected d) as Q.
  rewrite E in Q. cbn [snd] in Q. subst d'.
  apply (orderly_next d (fst (next d)) _ S). apply surjective_pairing.
Qed.

Hint Resolve orderly_expect1As orderly_expectAs : orderly.

Ltac orderly_steps :=
  repeat first
    [ solve [auto with orderly]
    | match goal with
      | |- orderly (match ?x with _ => _ end) => destruct x
      end
    | apply orderly_bind; [| intros ?; cbv beta] ].

Lemma orderly_parseLiteralSuffix o : orderly (parseLiteralSuffix o).
Proof. unfold parseLiteralSuffix. orderly_steps. Qed.

Lemma orderly_parseGraphLabel : orderly parseGraphLabel.
Proof. unfold parseGraphLabel. orderly_steps. Qed.

Hint Resolve orderly_parseLiteralSuffix orderly_parseGraphLabel : orderly.

Lemma orderly_parseStatement : orderly parseStatement.
Proof. unfold parseStatement. orderly_steps. Qed.

Hint Resolve orderly_parseStatement : orderly.

Lemma orderly_parseNQ_body : orderly parseNQ_body.
Proof. unfold parseNQ_body. orderly_steps. Qed.

Lemma orderly_Decode : orderly (Decode parseNQ).
Proof.
  intros d r d' S E.
  pose proof (Decode_cases tokenType_String Format_String skip_fuel d) as C.
  destruct (parseNQ_body d) as [[[q err] | [e | m]] d1] eqn:B;
    destruct (orderly_parseNQ_body _ _ _ S B) as (S1 & Src1);
    rewrite E in C; inversion C; subst; auto.
Qed.

(** Every state of a session keeps buffer and lexer in agreement, on the
    token sequence of the session's reader. *)
Lemma session_synced r f d :
  session parseNQ r f d -> synced d /\ source (l d) = r.
Proof.
  induction 1 as [| d o d' Ss (S & Src) E | d b o d' Ss (S & Src) E].
  - split; [apply NewQuadDecoder_synced | reflexivity].
  - destruct (orderly_Decode _ _ _ S E) as (S' & Src').
    split; [exact S' | congruence].
  - destruct (synced_exec b d S) as (d2 & E2 & S2 & _ & Src2).
    rewrite E2 in E. inversion E; subst. split; [exact S2 | congruence].
Qed.

(** [Decode] in a state where buffer and lexer agree: after the [n] leading
    whitespace/comment tokens the loop consumes, the token at the head
    decides between [io.EOF] and everything else. *)
Lemma Decode_at_head d :
  synced d ->
  exists n d1,
    (n <= skip_fuel)%nat /\
    (forall i, (i < n)%nat ->
               typ (source (l d) (cursor d + i)%nat) = tokenEOL) /\
    ((n < skip_fuel)%nat ->
     typ (source (l d) (cursor d + n)%nat) <> tokenEOL) /\
    ((typ (source (l d) (cursor d + n)%nat) = tokenEOF /\
      Decode parseNQ d = (Ret (zeroQuad, Some io_EOF), d1)) \/
     (typ (source (l d) (cursor d + n)%nat) <> tokenEOF /\
      forall q d', Decode parseNQ d <> (Ret (q, Some io_EOF), d'))).
Proof.
  intros S.
  destruct (skipLeading_spec skip_fuel d S)
    as (n & d0 & Sk & S0 & Src0 & C0 & L & B & St).
  destruct (synced_peek d0 S0) as (d1 & Pk & _).
  rewrite Src0, C0 in Pk.
  exists n, d1. split; [exact L |]. split; [exact B |]. split; [exact St |].
  pose proof (Decode_cases tokenType_String Format_String skip_fuel d) as C.
  assert (Body : parseNQ_body d =
                 match typ (source (l d) (cursor d + n)%nat) with
                 | tokenEOF => (Ret (zeroQuad, Some io_EOF), d1)
                 | _ => (st <- parseStatement ;; d2 <- get ;;
                         ret (quad_of d2 st, None)) d1
                 end).
  { unfold parseNQ_body. unfold bind at 1. rewrite Sk.
    unfold bind at 1. rewrite Pk.
    destruct (typ (source (l d) (cursor d + n)%nat)); reflexivity. }
  destruct (tokenType_eqb (typ (source (l d) (cursor d + n)%nat)) tokenEOF)
    eqn:T.
  - apply tokenType_eqb_eq in T. left. split; [exact T |].
    rewrite T in Body. rewrite Body in C. exact C.
  - assert (NT : typ (source (l d) (cursor d + n)%nat) <> tokenEOF).
    { intros Q. apply tokenType_eqb_eq in Q. congruence. }
    right. split; [exact NT |]. intros q d' D.
    destruct (parseNQ_body d) as [[[q0 err] | [e | m]] d2] eqn:B0.
    + rewrite D in C. inversion C; subst.
      destruct (typ (source (l d) (cursor d + n)%nat));
        try congruence;
        symmetry in Body;
        apply bind_Ret_inv in Body; destruct Body as (st & d3 & _ & K);
        apply bind_Ret_inv in K; destruct K as (d4 & d5 & _ & K);
        unfold ret in K; inversion K.
    + destruct (tidy_parseNQ_body tokenType_String Format_String skip_fuel
                  _ _ _ B0) as (_ & _ & NP).
      rewrite D in C. inversion C; subst.
      apply (NP (PanicError io_EOF)); reflexivity.
    + rewrite D in C. discriminate.
Qed.

(** C9: decoding an empty input stream (the lexer's first token is
    end-of-input) yields [io.EOF] on the first [Decode] call, and
    [DecodeAll] then returns the nil slice with a nil error.  In every
    state of a decoder session on the reader [r], [Decode] returns
    [io.EOF] exactly when the token stream is exhausted at the cursor: the
    tokens of [r] from the cursor on are whitespace/comment tokens (no
    more than the fuel of the skipping loop) followed by end-of-input.  It
    is then a result, not a fault: the error is [io.EOF] itself and
    [DecodeAll] ends with a nil error. *)
Theorem Decode_EOF_at_end_of_input r f d
  (H : session parseNQ r f d) :
  (typ (r 0%nat) = tokenEOF ->
   exists d',
     Decode parseNQ (NewQuadDecoder r f)
       = (Ret (zeroQuad, Some io_EOF), d') /\
     forall fuel,
       DecodeAll parseNQ (S fuel) (NewQuadDecoder r f)
         = Some (Ret ([], None), d')) /\
  ((exists q d', Decode parseNQ d = (Ret (q, Some io_EOF), d'))
   <-> exists n, (n <= skip_fuel)%nat /\ exhausted_after r (cursor d) n) /\
  (forall n,
      (n <= skip_fuel)%nat -> exhausted_after r (cursor d) n ->
      exists d',
        Decode parseNQ d = (Ret (zeroQuad, Some io_EOF), d') /\
        forall fuel,
          DecodeAll parseNQ (S fuel) d = Some (Ret ([], None), d')).
Proof.
  assert (Exh : forall d0,
             session parseNQ r f d0 ->
             forall n,
               (n <= skip_fuel)%nat -> exhausted_after r (cursor d0) n ->
               exists d',
                 Decode parseNQ d0 = (Ret (zeroQuad, Some io_EOF), d') /\
                 forall fuel,
                   DecodeAll parseNQ (S fuel) d0
                     = Some (Ret ([], None), d')).
  { intros d0 H0 n Ln (Bn & En).
    destruct (session_synced r f d0 H0) as (S0 & Src).
    destruct (Decode_at_head d0 S0) as (m & d1 & Lm & Bm & Sm & K).
    rewrite Src in Bm, Sm, K.
    assert (Q : m = n).
    { destruct (Nat.lt_trichotomy m n) as [Lt | [Eq | Gt]]; [| exact Eq |].
      - exfalso. apply Sm; [lia | apply Bn; exact Lt].
      - exfalso. rewrite (Bm n Gt) in En. discriminate. }
    subst m. destruct K as [(_ & D) | (NE & _)]; [| contradiction].
    exists d1. split; [exact D |].
    intros fuel. unfold DecodeAll. cbn [DecodeAll_loop].
    rewrite D. reflexivity. }
  split; [| split].
  - intros T.
    apply (Exh (NewQuadDecoder r f) (session_new _ r f) 0%nat);
      [lia |].
    split; [intros i Hi; lia | exact T].
  - split.
    + intros (q & d' & D).
      destruct (session_synced r f d H) as (S0 & Src).
      destruct (Decode_at_head d S0) as (m & d1 & Lm & Bm & Sm & K).
      rewrite Src in Bm, Sm, K.
      destruct K as [(E & _) | (_ & N)]; [| exfalso; apply (N q d' D)].
      exists m. split; [exact Lm |]. split; [exact Bm | exact E].
    + intros (n & Ln & X).
      destruct (Exh d H n Ln X) as (d' & D & _).
      exists zeroQuad, d'. exact D.
  - apply (Exh d H).
Qed.

End EndOfInput.

Lemma Decode_EOF_at_end_of_input_witness :
  let P := parseNQ show_kind show_format 4 in
  let r := reader_of (stmt_plain 1 ++ [tEOL 1 28; tEOL 2 1]) in
  let d := snd (Decode P (NewQuadDecoder r FormatNQ)) in
  session P r FormatNQ d /\
  exhausted_after r (cursor d) 2 /\
  exists q d', Decode P d = (Ret (q, Some io_EOF), d').
Proof.
  intros P r d.
  assert (H : session P r FormatNQ d)
    by (apply (session_Decode P r FormatNQ (NewQuadDecoder r FormatNQ)
                 (fst (Decode P (NewQuadDecoder r FormatNQ))));
        [apply session_new | apply surjective_pairing]).
  assert (X : exhausted_after r (cursor d) 2).
  { split; [| reflexivity].
    intros i Hi. destruct i as [| [| i]]; [reflexivity | reflexivity | lia]. }
  split; [exact H |]. split; [exact X |].
  apply (proj1 (proj2 (Decode_EOF_at_end_of_input show_kind show_format 4
                         r FormatNQ d H))).
  exists 2%nat. split; [lia | exact X].
Defined.

(* ================================================================== *)
(** * What stays fixed for the life of a decoder *)

(** X12: the default graph of a decoder built by [NewQuadDecoder] is the
    Blank term of identifier [_:defaultGraph] and its format is the one
    asked for, and both stay so through every sequence of [next], [peek],
    [expect1As] and [expectAs] calls, faulting calls included. *)
Theorem default_graph_and_format_are_fixed
  (tokenType_String : tokenType -> string) (Format_String : Format -> string)
  (r : Reader) (f : Format) (cs : list call) :
  DefaultGraph
    (after_calls tokenType_String Format_String cs (NewQuadDecoder r f))
    = Blank "_:defaultGraph" /\
  format
    (after_calls tokenType_String Format_String cs (NewQuadDecoder r f))
    = f.
Proof.
  assert (G : forall d,
             DefaultGraph d = Blank "_:defaultGraph" /\ format d = f ->
             DefaultGraph (after_calls tokenType_String Format_String cs d)
               = Blank "_:defaultGraph" /\
             format (after_calls tokenType_String Format_String cs d) = f).
  { induction cs as [| c cs IH]; intros d (Dg & Fm); cbn [after_calls].
    - auto.
    - apply IH.
      assert (T : tidy (perform tokenType_String Format_String c)).
      { destruct c; cbn [perform].
        - apply tidy_next.
        - apply tidy_peek.
        - apply tidy_expect1As.
        - apply tidy_expectAs. }
      destruct (T d (fst (perform tokenType_String Format_String c d))
                  (snd (perform tokenType_String Format_String c d))
                  (surjective_pairing _)) as (Dg' & Fm' & _).
      split; congruence. }
  apply G. split; reflexivity.
Qed.
